(** * DeadDrop cryptography module: sealing and opening of envelopes

    A shallow embedding of [src/cpp/crypto.cpp].  The two exported functions,
    [encrypt_file] and [decrypt_file], work on raw pointers into the linear
    memory of the WebAssembly instance, call the host's random source once
    (sealing only) and delegate all cryptography to the AEAD engine
    (monocypher's [crypto_aead_lock] / [crypto_aead_unlock]).

    The embedding keeps that shape: a byte-addressed memory, pointers as
    addresses with [NULL = 0], a state monad threading memory, the host's
    entropy and a log of the calls made to the collaborators, and the engine
    as an interface with a stated contract. *)

From Stdlib Require Import ZArith List Bool Lia.
From Stdlib Require Import Strings.Byte.
Import ListNotations.

Open Scope Z_scope.

(* ===================================================================== *)
(** ** Bytes *)
(* ===================================================================== *)

Definition bits8 : Type :=
  (bool * (bool * (bool * (bool * (bool * (bool * (bool * bool)))))))%type.

Definition xor8 (x y : bits8) : bits8 :=
  let '(x0, (x1, (x2, (x3, (x4, (x5, (x6, x7))))))) := x in
  let '(y0, (y1, (y2, (y3, (y4, (y5, (y6, y7))))))) := y in
  (xorb x0 y0, (xorb x1 y1, (xorb x2 y2, (xorb x3 y3,
   (xorb x4 y4, (xorb x5 y5, (xorb x6 y6, xorb x7 y7))))))).

(** Bitwise exclusive or of two [uint8_t] values. *)
Definition byte_xor (a b : byte) : byte :=
  Byte.of_bits (xor8 (Byte.to_bits a) (Byte.to_bits b)).

(** The byte whose only set bit is bit [b] (bit 0 is the least significant). *)
Definition bit_mask (b : nat) : byte :=
  match b with
  | 0%nat => x01 | 1%nat => x02 | 2%nat => x04 | 3%nat => x08
  | 4%nat => x10 | 5%nat => x20 | 6%nat => x40 | _ => x80
  end.

(** Flipping bit [b] of a byte. *)
Definition flip_bit (b : nat) (x : byte) : byte := byte_xor x (bit_mask b).

Definition bytes_eqb (l1 l2 : list byte) : bool :=
  if list_eq_dec Byte.byte_eq_dec l1 l2 then true else false.

(** Flipping bit [b] of the byte at index [i] of a byte string. *)
Fixpoint flip_bit_at (i b : nat) (l : list byte) : list byte :=
  match l with
  | [] => []
  | x :: l' =>
      match i with
      | O => flip_bit b x :: l'
      | S i' => x :: flip_bit_at i' b l'
      end
  end.

(* ===================================================================== *)
(** ** Machine integers

    [size_t] is an unsigned integer of [size_bits] bits (32 on the default
    Emscripten target, 64 with MEMORY64); [int] is a signed 32-bit integer
    on both.  Values are carried as [Z] and the wrap-around is written out. *)
(* ===================================================================== *)

Class Target : Type := { size_bits : Z }.

Definition INT_MAX : Z := 2147483647.
Definition INT_MIN : Z := -2147483648.

Definition SIZE_MAX {T : Target} : Z := 2 ^ size_bits - 1.

(** Reduction of a mathematical integer to [size_t]. *)
Definition to_size {T : Target} (x : Z) : Z := x mod 2 ^ size_bits.

(** [static_cast<int>(x)] for an unsigned [x]: the value modulo [2^32],
    read as a two's complement number (what Emscripten's compiler does,
    and what the language requires since C++20). *)
Definition static_cast_int (x : Z) : Z :=
  let r := x mod 2 ^ 32 in
  if r <=? INT_MAX then r else r - 2 ^ 32.

(* ===================================================================== *)
(** ** Linear memory *)
(* ===================================================================== *)

Definition ptr : Type := Z.
Definition NULL : ptr := 0.

Definition memory : Type := Z -> byte.

(** The [n] bytes starting at address [p]. *)
Definition load_bytes (m : memory) (p : ptr) (n : Z) : list byte :=
  map (fun i => m (p + Z.of_nat i)) (seq 0 (Z.to_nat n)).

(** Memory after writing [bs] at address [p]. *)
Definition store_bytes (m : memory) (p : ptr) (bs : list byte) : memory :=
  fun a =>
    if (p <=? a) && (a <? p + Z.of_nat (length bs))
    then nth (Z.to_nat (a - p)) bs x00
    else m a.

(** Memory after changing the single byte at address [a] to [v]. *)
Definition poke (m : memory) (a : ptr) (v : byte) : memory :=
  fun a' => if a' =? a then v else m a'.

(** Two address ranges [[p, p + n)] and [[q, q + k)] do not overlap. *)
Definition disjoint (p n q k : Z) : Prop := p + n <= q \/ q + k <= p.

(* ===================================================================== *)
(** ** Program state and the monad of the embedding *)
(* ===================================================================== *)

(** Calls made to the collaborators, most recent first. *)
Inductive event : Type :=
| EvGetRandomValues (n : Z)
| EvAeadLock (text_size : Z)
| EvAeadUnlock (text_size : Z) (result : Z)
| EvWipe (size : Z).

Record state : Type := mkState {
  heap : memory;              (* Module.HEAP8 *)
  entropy : nat -> byte;      (* bytes the host's random source will deliver *)
  trace : list event
}.

Definition M (A : Type) : Type := state -> A * state.

Definition ret {A : Type} (a : A) : M A := fun s => (a, s).

Definition bind {A B : Type} (c : M A) (k : A -> M B) : M B :=
  fun s => let (a, s') := c s in k a s'.

Notation "x <- c ;; k" := (bind c (fun x => k))
  (at level 61, c at next level, right associativity).
Notation "c ;; k" := (bind c (fun _ => k))
  (at level 61, right associativity).

Definition log (e : event) : M unit :=
  fun s => (tt, mkState (heap s) (entropy s) (e :: trace s)).

Definition load (p : ptr) (n : Z) : M (list byte) :=
  fun s => (load_bytes (heap s) p n, s).

Definition store (p : ptr) (bs : list byte) : M unit :=
  fun s => (tt, mkState (store_bytes (heap s) p bs) (entropy s) (trace s)).

(** A read-only buffer argument: a pointer into linear memory, or a local
    array of the calling function. *)
Inductive operand : Type :=
| InHeap (p : ptr)
| Local (bs : list byte).

Definition read (o : operand) (n : Z) : M (list byte) :=
  match o with
  | InHeap p => load p n
  | Local bs => ret (firstn (Z.to_nat n) bs)
  end.

(** [std::memcpy(dst, src, n)] from a local array. *)
Definition memcpy (dst : ptr) (src : list byte) (n : Z) : M unit :=
  store dst (firstn (Z.to_nat n) src).

(** The [EM_ASM] block of [encrypt_file]: [crypto.getRandomValues] on a
    24-byte view of the local nonce array.  The block returns nothing, so
    the embedding has no failure result for it. *)
Definition get_random_values (n : Z) : M (list byte) :=
  fun s =>
    (map (entropy s) (seq 0 (Z.to_nat n)),
     mkState (heap s)
             (fun i => entropy s (Z.to_nat n + i)%nat)
             (EvGetRandomValues n :: trace s)).

(* ===================================================================== *)
(** ** The AEAD engine

    Monocypher is a third-party library behind [monocypher.h]; the engine
    enters as an interface.  Its two operations are pure functions of byte
    strings, its contract is stated separately so that every theorem shows
    which part of it is used. *)
(* ===================================================================== *)

(** Modelled from the spec: the boundary operations of section 6,
    [aead_seal(key, nonce, aad, plaintext) -> (ciphertext, tag)] and
    [aead_open(key, nonce, aad, ciphertext, tag) -> plaintext |
    verification_failure]. *)
Class AeadEngine : Type := {
  aead_seal : list byte -> list byte -> list byte -> list byte ->
              list byte * list byte;
  aead_open : list byte -> list byte -> list byte -> list byte -> list byte ->
              option (list byte)
}.

(** Modelled from the spec: the engine's functional contract.  The
    ciphertext has the length of the plaintext and the tag has 16 bytes
    (section 3); opening what was sealed under the same key, nonce and
    associated data gives the plaintext back (section 4.1); a recovered
    plaintext has the length of the ciphertext. *)
Class AeadContract (E : AeadEngine) : Prop := {
  aead_seal_length : forall k n a p,
    length k = 32%nat -> length n = 24%nat ->
    length (fst (aead_seal k n a p)) = length p /\
    length (snd (aead_seal k n a p)) = 16%nat;
  aead_open_seal : forall k n a p,
    length k = 32%nat -> length n = 24%nat ->
    aead_open k n a (fst (aead_seal k n a p)) (snd (aead_seal k n a p)) = Some p;
  aead_open_length : forall k n a c t p,
    aead_open k n a c t = Some p -> length p = length c
}.

(** Modelled from the spec: tamper evidence (sections 3 and 8.4).  The tag
    binds the ciphertext: after one bit of a sealed ciphertext or of its tag
    is flipped, the engine refuses to open. *)
Class AeadTamperEvident (E : AeadEngine) : Prop :=
  aead_open_tampered : forall k n a p (i b : nat),
    length k = 32%nat -> length n = 24%nat ->
    (i < length (fst (aead_seal k n a p) ++ snd (aead_seal k n a p)))%nat ->
    (b < 8)%nat ->
    aead_open k n a
      (firstn (length p)
         (flip_bit_at i b (fst (aead_seal k n a p) ++ snd (aead_seal k n a p))))
      (skipn (length p)
         (flip_bit_at i b (fst (aead_seal k n a p) ++ snd (aead_seal k n a p))))
    = None.


(** Modelled from the spec: the sealing operation of section 6 behind
    monocypher's [crypto_aead_lock].  The parameter order is the one
    [monocypher.h] declares in the 4.x releases, the releases that have
    this name and the order of [crypto_aead_unlock] used below:
    [void crypto_aead_lock(uint8_t *cipher_text, uint8_t mac[16],
    const uint8_t key[32], const uint8_t nonce[24], const uint8_t *ad,
    size_t ad_size, const uint8_t *plain_text, size_t text_size)].
    It reads the 32-byte key, the 24-byte nonce, the associated data and
    the plaintext, writes [text_size] bytes of ciphertext at [cipher_text]
    and then the 16-byte tag at [mac]. *)
Definition crypto_aead_lock {E : AeadEngine}
    (cipher_text mac key : ptr) (nonce : operand)
    (ad : ptr) (ad_size : Z) (plain_text : ptr) (text_size : Z) : M unit :=
  k <- load key 32 ;;
  n <- read nonce 24 ;;
  a <- load ad ad_size ;;
  p <- load plain_text text_size ;;
  store cipher_text (fst (aead_seal k n a p)) ;;
  store mac (snd (aead_seal k n a p)) ;;
  log (EvAeadLock text_size).

(** Modelled from the spec: the opening operation of section 6 behind
    monocypher's [int crypto_aead_unlock(uint8_t *plain_text,
    const uint8_t mac[16], const uint8_t key[32], const uint8_t nonce[24],
    const uint8_t *ad, size_t ad_size, const uint8_t *cipher_text,
    size_t text_size)].  It returns 0
    and writes the plaintext when the tag verifies; otherwise it returns -1
    and writes nothing (section 4.2: the engine only decrypts if
    verification succeeds). *)
Definition crypto_aead_unlock {E : AeadEngine}
    (plain_text mac key : ptr) (nonce : operand)
    (ad : ptr) (ad_size : Z) (cipher_text : ptr) (text_size : Z) : M Z :=
  t <- load mac 16 ;;
  k <- load key 32 ;;
  n <- read nonce 24 ;;
  a <- load ad ad_size ;;
  c <- load cipher_text text_size ;;
  match aead_open k n a c t with
  | Some p =>
      store plain_text p ;;
      log (EvAeadUnlock text_size 0) ;;
      ret 0
  | None =>
      log (EvAeadUnlock text_size (-1)) ;;
      ret (-1)
  end.

(** Modelled from the spec: monocypher's [crypto_wipe(secret, size)], the
    non-elidable zeroing of section 4.1 step 4.  The wiped array is local
    to the caller; the embedding returns its new content. *)
Definition crypto_wipe (secret : list byte) (size : Z) : M (list byte) :=
  log (EvWipe size) ;;
  ret (repeat x00 (Z.to_nat size) ++ skipn (Z.to_nat size) secret).

(* ===================================================================== *)
(** ** The two exported functions *)
(* ===================================================================== *)

(** [int encrypt_file(const uint8_t* plaintext, size_t plaintext_len,
                      const uint8_t* key, uint8_t* output)] *)
Definition encrypt_file {T : Target} {E : AeadEngine}
    (plaintext : ptr) (plaintext_len : Z) (key : ptr) (output : ptr) : M Z :=
  if (plaintext =? NULL) || (key =? NULL) || (output =? NULL)
     || (plaintext_len =? 0)
  then ret (-1)
  else
    nonce <- get_random_values 24 ;;
    let nonce_out := output in
    let ciphertext := output + 24 in
    let mac := output + 24 + plaintext_len in
    memcpy nonce_out nonce 24 ;;
    (* crypto_aead_lock(mac, ciphertext, key, nonce, nullptr, 0,
                        plaintext, plaintext_len), arguments as written *)
    crypto_aead_lock mac ciphertext key (Local nonce) NULL 0
                     plaintext plaintext_len ;;
    crypto_wipe nonce 24 ;;
    ret (static_cast_int (to_size (plaintext_len + 40))).

(** [int decrypt_file(const uint8_t* encrypted, size_t encrypted_len,
                      const uint8_t* key, uint8_t* plaintext)] *)
Definition decrypt_file {T : Target} {E : AeadEngine}
    (encrypted : ptr) (encrypted_len : Z) (key : ptr) (plaintext : ptr) : M Z :=
  if (encrypted =? NULL) || (key =? NULL) || (plaintext =? NULL)
     || (encrypted_len <? 40)
  then ret (-1)
  else
    let plaintext_len := to_size (encrypted_len - 40) in
    let nonce := encrypted in
    let ciphertext := encrypted + 24 in
    let mac := encrypted + 24 + plaintext_len in
    result <- crypto_aead_unlock plaintext mac key (InHeap nonce) NULL 0
                                 ciphertext plaintext_len ;;
    ret (if result =? 0 then static_cast_int plaintext_len else -1).

(* ===================================================================== *)
(** ** What a caller observes *)
(* ===================================================================== *)

(** The calls made to collaborators between state [s] and a later state
    [s']. *)
Definition calls_since (s s' : state) : list event :=
  firstn (length (trace s') - length (trace s)) (trace s').

(** The error kinds of section 7 of the spec. *)
Inductive Error : Type :=
| InvalidInput
| RandomSourceFailure
| AuthenticationFailure.

(** The kind of a failed call, read off its execution: a failure reported
    before any collaborator was called is a rejected input, a failure
    reported right after the engine refused the tag is an authentication
    failure.  The code itself reports both as the [int] -1. *)
Definition failure_kind (result : Z) (calls : list event) : option Error :=
  if result =? -1 then
    match calls with
    | [] => Some InvalidInput
    | EvAeadUnlock _ r :: _ =>
        if r =? 0 then None else Some AuthenticationFailure
    | _ => None
    end
  else None.

(** The 24 bytes the random source delivers next. *)
Definition drawn_nonce (s : state) : list byte := map (entropy s) (seq 0 24).

(** The state in which [encrypt_file] returns after a call that passed its
    input validation: the nonce copied to [output], then the engine's
    writes, the ciphertext through the pointer the source calls [mac] and
    the tag through the pointer it calls [ciphertext]; 24 bytes of entropy
    consumed, three collaborator calls logged. *)
Definition sealed_state {E : AeadEngine}
    (plaintext : ptr) (plaintext_len : Z) (key output : ptr) (s : state)
    : state :=
  let nonce := drawn_nonce s in
  let h1 := store_bytes (heap s) output nonce in
  let k := load_bytes h1 key 32 in
  let p := load_bytes h1 plaintext plaintext_len in
  let h2 := store_bytes h1 (output + 24 + plaintext_len)
                        (fst (aead_seal k nonce [] p)) in
  let h3 := store_bytes h2 (output + 24) (snd (aead_seal k nonce [] p)) in
  mkState h3 (fun i => entropy s (24 + i)%nat)
          (EvWipe 24 :: EvAeadLock plaintext_len :: EvGetRandomValues 24
           :: trace s).

(** What the engine answers when [decrypt_file] hands it the three fields
    of the blob at [encrypted] and the key at [key]. *)
Definition engine_verdict {E : AeadEngine}
    (encrypted : ptr) (encrypted_len : Z) (key : ptr) (s : state)
    : option (list byte) :=
  aead_open (load_bytes (heap s) key 32)
            (load_bytes (heap s) encrypted 24)
            []
            (load_bytes (heap s) (encrypted + 24) (encrypted_len - 40))
            (load_bytes (heap s) (encrypted + 24 + (encrypted_len - 40)) 16).

(** A well-formed call of [encrypt_file]: non-null buffers, a non-empty
    plaintext whose envelope fits the address space, and an output buffer
    of [plaintext_len + 40] bytes that overlaps neither the plaintext nor
    the key. *)
Definition seal_call_ok {T : Target}
    (plaintext : ptr) (plaintext_len : Z) (key output : ptr) : Prop :=
  plaintext <> NULL /\ key <> NULL /\ output <> NULL /\
  1 <= plaintext_len /\ plaintext_len + 40 <= SIZE_MAX /\
  disjoint output (plaintext_len + 40) plaintext plaintext_len /\
  disjoint output (plaintext_len + 40) key 32.

(** The state after an attacker flipped bit [b] of the byte at address
    [a]. *)
Definition tamper (a : ptr) (b : nat) (s : state) : state :=
  mkState (poke (heap s) a (flip_bit b (heap s a))) (entropy s) (trace s).

(** The envelope of section 3 for a given nonce, key and plaintext. *)
Definition envelope {E : AeadEngine} (nonce key p : list byte) : list byte :=
  nonce ++ fst (aead_seal key nonce [] p) ++ snd (aead_seal key nonce [] p).


(* ===================================================================== *)
(** ** A reference engine

    A small engine with the shape of an encrypt-then-MAC construction: a
    position-dependent XOR pad derived from key and nonce, and a 16-byte tag
    mixing key, nonce and a parity byte of associated data and ciphertext.
    It has no cryptographic strength; it shows that the contract above can
    be met and lets the exported functions run on concrete inputs. *)
(* ===================================================================== *)

Definition xor_fold (l : list byte) : byte := fold_right byte_xor x00 l.

Definition ref_pad (k n : list byte) (i : nat) : byte :=
  byte_xor (nth (i mod 32) k x00) (nth (i mod 24) n x00).

Fixpoint ref_stream (k n : list byte) (i : nat) (p : list byte) : list byte :=
  match p with
  | [] => []
  | b :: p' => byte_xor b (ref_pad k n i) :: ref_stream k n (S i) p'
  end.

Definition ref_mac (k n a c : list byte) : list byte :=
  map (fun i => byte_xor (byte_xor (nth i k x00) (nth i n x00))
                         (xor_fold (a ++ c)))
      (seq 0 16).

Definition ref_seal (k n a p : list byte) : list byte * list byte :=
  (ref_stream k n 0 p, ref_mac k n a (ref_stream k n 0 p)).

Definition ref_open (k n a c t : list byte) : option (list byte) :=
  if bytes_eqb t (ref_mac k n a c) then Some (ref_stream k n 0 c) else None.

Definition ref_engine : AeadEngine :=
  {| aead_seal := ref_seal; aead_open := ref_open |}.

Definition wasm32 : Target := {| size_bits := 32 |}.
Definition wasm64 : Target := {| size_bits := 64 |}.



(** A concrete machine state: memory holding a 5-byte plaintext at address
    64 and two 32-byte keys at addresses 128 and 192, zero elsewhere; the
    random source delivers the bytes 1, 2, 3, ... *)
Definition demo_plaintext : list byte := [x68; x65; x6c; x6c; x6f].

Definition demo_key1 : list byte := repeat x2a 32.
Definition demo_key2 : list byte := x07 :: repeat x2a 31.

Definition demo_memory : memory :=
  store_bytes (store_bytes (store_bytes (fun _ => x00) 64 demo_plaintext)
                           128 demo_key1)
              192 demo_key2.

Definition demo_entropy (i : nat) : byte :=
  match Byte.of_nat (S i mod 256) with Some b => b | None => x00 end.

Definition demo_state : state := mkState demo_memory demo_entropy [].

(** A machine state whose memory is all zero. *)
Definition zero_state : state := mkState (fun _ => x00) (fun _ => x00) [].

(** A third key, equal to [demo_key1] but for byte 20, and [demo_state]
    with that key at address 256 and, at address 1024, the envelope of
    [demo_plaintext] sealed by the reference engine under [demo_key1]. *)
Definition demo_key3 : list byte := repeat x2a 20 ++ x07 :: repeat x2a 11.

Definition demo_envelope : list byte :=
  envelope (E := ref_engine) (drawn_nonce demo_state) demo_key1 demo_plaintext.

Definition demo_sealed_state : state :=
  mkState (store_bytes (store_bytes demo_memory 256 demo_key3)
                       1024 demo_envelope)
          demo_entropy [].


(* ===================================================================== *)
(** * Properties *)
(* ===================================================================== *)

(** ** Bytes *)

Lemma to_bits_inj (a b : byte) : Byte.to_bits a = Byte.to_bits b -> a = b.
Proof.
  intro H. rewrite <- (Byte.of_bits_to_bits a), <- (Byte.of_bits_to_bits b).
  now rewrite H.
Qed.

Lemma to_bits_byte_xor (a b : byte) :
  Byte.to_bits (byte_xor a b) = xor8 (Byte.to_bits a) (Byte.to_bits b).
Proof. unfold byte_xor. apply Byte.to_bits_of_bits. Qed.

Ltac bits8_cases x :=
  destruct x as [?b0 [?b1 [?b2 [?b3 [?b4 [?b5 [?b6 ?b7]]]]]]].

Lemma xor8_comm (x y : bits8) : xor8 x y = xor8 y x.
Proof.
  bits8_cases x; bits8_cases y; simpl.
  repeat (f_equal; try apply xorb_comm).
Qed.

Lemma xor8_assoc (x y z : bits8) : xor8 (xor8 x y) z = xor8 x (xor8 y z).
Proof.
  bits8_cases x; bits8_cases y; bits8_cases z; simpl.
  repeat (f_equal; try apply xorb_assoc).
Qed.

Lemma xor8_nilpotent (x : bits8) : xor8 x x = Byte.to_bits x00.
Proof.
  bits8_cases x; simpl. rewrite !xorb_nilpotent. reflexivity.
Qed.

Lemma xor8_zero_r (x : bits8) : xor8 x (Byte.to_bits x00) = x.
Proof.
  bits8_cases x; simpl. rewrite !xorb_false_r. reflexivity.
Qed.

Lemma byte_xor_comm (a b : byte) : byte_xor a b = byte_xor b a.
Proof. apply to_bits_inj. rewrite !to_bits_byte_xor. apply xor8_comm. Qed.

Lemma byte_xor_assoc (a b c : byte) :
  byte_xor (byte_xor a b) c = byte_xor a (byte_xor b c).
Proof. apply to_bits_inj. rewrite !to_bits_byte_xor. apply xor8_assoc. Qed.

Lemma byte_xor_nilpotent (a : byte) : byte_xor a a = x00.
Proof. apply to_bits_inj. rewrite to_bits_byte_xor. apply xor8_nilpotent. Qed.

Lemma byte_xor_x00_r (a : byte) : byte_xor a x00 = a.
Proof. apply to_bits_inj. rewrite to_bits_byte_xor. apply xor8_zero_r. Qed.

Lemma byte_xor_x00_l (a : byte) : byte_xor x00 a = a.
Proof. rewrite byte_xor_comm. apply byte_xor_x00_r. Qed.

Lemma byte_xor_cancel_r (a b : byte) : byte_xor (byte_xor a b) b = a.
Proof. now rewrite byte_xor_assoc, byte_xor_nilpotent, byte_xor_x00_r. Qed.

Lemma byte_xor_inj_l (a b c : byte) : byte_xor a c = byte_xor b c -> a = b.
Proof.
  intro H. rewrite <- (byte_xor_cancel_r a c), H. apply byte_xor_cancel_r.
Qed.

Lemma byte_xor_inj_r (a b c : byte) : byte_xor c a = byte_xor c b -> a = b.
Proof. rewrite !(byte_xor_comm c). apply byte_xor_inj_l. Qed.

Lemma bit_mask_nonzero (b : nat) : bit_mask b <> x00.
Proof.
  do 8 (destruct b as [|b]; [discriminate|]). discriminate.
Qed.

Lemma flip_bit_neq (b : nat) (x : byte) : flip_bit b x <> x.
Proof.
  unfold flip_bit. intro H.
  apply (bit_mask_nonzero b), (byte_xor_inj_r _ _ x).
  now rewrite byte_xor_x00_r.
Qed.

Lemma bytes_eqb_refl (l : list byte) : bytes_eqb l l = true.
Proof. unfold bytes_eqb. destruct (list_eq_dec _ l l); congruence. Qed.

Lemma bytes_eqb_neq (l1 l2 : list byte) : l1 <> l2 -> bytes_eqb l1 l2 = false.
Proof. unfold bytes_eqb. destruct (list_eq_dec _ l1 l2); congruence. Qed.

Lemma length_flip_bit_at (i b : nat) (l : list byte) :
  length (flip_bit_at i b l) = length l.
Proof.
  revert i; induction l as [|x l IH]; intros [|i]; simpl; auto.
Qed.

Lemma flip_bit_at_neq (i b : nat) (l : list byte) :
  (i < length l)%nat -> flip_bit_at i b l <> l.
Proof.
  revert i; induction l as [|x l IH]; intros [|i] Hi; simpl in *; try lia.
  - intro H. injection H as H. now apply flip_bit_neq in H.
  - intro H. injection H as H. apply (IH i); [lia | assumption].
Qed.

Lemma flip_bit_at_app_l (i b : nat) (l1 l2 : list byte) :
  (i < length l1)%nat ->
  flip_bit_at i b (l1 ++ l2) = flip_bit_at i b l1 ++ l2.
Proof.
  revert i; induction l1 as [|x l1 IH]; intros [|i] Hi; simpl in *; try lia.
  - reflexivity.
  - f_equal. apply IH. lia.
Qed.

Lemma flip_bit_at_app_r (i b : nat) (l1 l2 : list byte) :
  (length l1 <= i)%nat ->
  flip_bit_at i b (l1 ++ l2) = l1 ++ flip_bit_at (i - length l1) b l2.
Proof.
  revert i; induction l1 as [|x l1 IH]; intros i Hi; simpl in *.
  - now rewrite Nat.sub_0_r.
  - destruct i as [|i]; [lia|]. simpl. f_equal. apply IH. lia.
Qed.

(** ** Linear memory *)

Lemma length_load_bytes (m : memory) (p : ptr) (n : Z) :
  length (load_bytes m p n) = Z.to_nat n.
Proof. unfold load_bytes. now rewrite length_map, length_seq. Qed.

Lemma load_bytes_ext (m m' : memory) (p : ptr) (n : Z) :
  (forall a, p <= a < p + n -> m a = m' a) ->
  load_bytes m p n = load_bytes m' p n.
Proof.
  intro H. unfold load_bytes. apply map_ext_in.
  intros i Hi. apply in_seq in Hi. apply H. lia.
Qed.

Lemma load_bytes_shift (m : memory) (p : ptr) (k : nat) (n : nat) :
  map (fun i => m (p + Z.of_nat i)) (seq k n) =
  map (fun i => m (p + Z.of_nat k + Z.of_nat i)) (seq 0 n).
Proof.
  revert k; induction n as [|n IH]; intro k; simpl; [reflexivity|].
  f_equal; [f_equal; lia|].
  rewrite (IH (S k)), <- seq_shift, map_map.
  apply map_ext. intro i. f_equal. lia.
Qed.

Lemma load_bytes_app (m : memory) (p : ptr) (a b : Z) :
  0 <= a -> 0 <= b ->
  load_bytes m p (a + b) = load_bytes m p a ++ load_bytes m (p + a) b.
Proof.
  intros Ha Hb. unfold load_bytes.
  rewrite Z2Nat.inj_add by assumption.
  rewrite seq_app, map_app. f_equal. simpl.
  rewrite load_bytes_shift. rewrite Z2Nat.id by assumption. reflexivity.
Qed.

Lemma load_store_same (m : memory) (p : ptr) (bs : list byte) (n : Z) :
  n = Z.of_nat (length bs) ->
  load_bytes (store_bytes m p bs) p n = bs.
Proof.
  intros ->. unfold load_bytes. rewrite Nat2Z.id.
  apply nth_ext with (d := x00) (d' := x00).
  - now rewrite length_map, length_seq.
  - intros i Hi. rewrite length_map, length_seq in Hi.
    rewrite (nth_indep _ x00 (store_bytes m p bs (p + Z.of_nat 0)))
      by now rewrite length_map, length_seq.
    rewrite (map_nth (fun i => store_bytes m p bs (p + Z.of_nat i))).
    rewrite seq_nth by assumption. simpl.
    unfold store_bytes.
    replace ((p <=? p + Z.of_nat i) && (p + Z.of_nat i <? p + Z.of_nat (length bs)))
      with true by (symmetry; apply andb_true_iff; split; lia).
    f_equal. lia.
Qed.

Lemma store_bytes_outside (m : memory) (p : ptr) (bs : list byte) (a : Z) :
  a < p \/ p + Z.of_nat (length bs) <= a ->
  store_bytes m p bs a = m a.
Proof.
  intro H. unfold store_bytes.
  replace ((p <=? a) && (a <? p + Z.of_nat (length bs))) with false; [reflexivity|].
  symmetry. apply andb_false_iff. lia.
Qed.

Lemma load_store_disjoint (m : memory) (p q : ptr) (bs : list byte) (n : Z) :
  disjoint p n q (Z.of_nat (length bs)) ->
  load_bytes (store_bytes m q bs) p n = load_bytes m p n.
Proof.
  intro H. apply load_bytes_ext. intros a Ha.
  apply store_bytes_outside. unfold disjoint in H. lia.
Qed.

Lemma app_inj_length (a b c d : list byte) :
  length a = length c -> a ++ b = c ++ d -> a = c /\ b = d.
Proof.
  revert c; induction a as [|x a IH]; intros [|y c] Hl H; simpl in *;
    try discriminate.
  - now split.
  - injection H as -> H. injection Hl as Hl.
    destruct (IH c Hl H) as [-> ->]. now split.
Qed.

(** ** Runs of the exported functions *)

Section Runs.
Context {T : Target} {E : AeadEngine}.

Lemma encrypt_file_rejects (plaintext : ptr) (plaintext_len : Z)
      (key output : ptr) (s : state) :
  plaintext = NULL \/ key = NULL \/ output = NULL \/ plaintext_len = 0 ->
  encrypt_file plaintext plaintext_len key output s = (-1, s).
Proof.
  intro H. unfold encrypt_file.
  replace ((plaintext =? NULL) || (key =? NULL) || (output =? NULL)
           || (plaintext_len =? 0)) with true; [reflexivity|].
  symmetry. rewrite !orb_true_iff, !Z.eqb_eq. tauto.
Qed.

Lemma encrypt_file_runs (plaintext : ptr) (plaintext_len : Z)
      (key output : ptr) (s : state) :
  plaintext <> NULL -> key <> NULL -> output <> NULL -> plaintext_len <> 0 ->
  encrypt_file plaintext plaintext_len key output s =
  (static_cast_int (to_size (plaintext_len + 40)),
   sealed_state plaintext plaintext_len key output s).
Proof.
  intros Hp Hk Ho Hl. unfold encrypt_file.
  replace ((plaintext =? NULL) || (key =? NULL) || (output =? NULL)
           || (plaintext_len =? 0)) with false; [reflexivity|].
  symmetry. rewrite !orb_false_iff, !Z.eqb_neq. tauto.
Qed.

Lemma decrypt_file_rejects (encrypted : ptr) (encrypted_len : Z)
      (key plaintext : ptr) (s : state) :
  encrypted = NULL \/ key = NULL \/ plaintext = NULL \/ encrypted_len < 40 ->
  decrypt_file encrypted encrypted_len key plaintext s = (-1, s).
Proof.
  intro H. unfold decrypt_file.
  replace ((encrypted =? NULL) || (key =? NULL) || (plaintext =? NULL)
           || (encrypted_len <? 40)) with true; [reflexivity|].
  symmetry. rewrite !orb_true_iff, !Z.eqb_eq, Z.ltb_lt. tauto.
Qed.

Lemma decrypt_file_runs (encrypted : ptr) (encrypted_len : Z)
      (key plaintext : ptr) (s : state) :
  encrypted <> NULL -> key <> NULL -> plaintext <> NULL ->
  40 <= encrypted_len <= SIZE_MAX ->
  decrypt_file encrypted encrypted_len key plaintext s =
  match engine_verdict encrypted encrypted_len key s with
  | Some p =>
      (static_cast_int (encrypted_len - 40),
       mkState (store_bytes (heap s) plaintext p) (entropy s)
               (EvAeadUnlock (encrypted_len - 40) 0 :: trace s))
  | None =>
      (-1, mkState (heap s) (entropy s)
                   (EvAeadUnlock (encrypted_len - 40) (-1) :: trace s))
  end.
Proof.
  intros He Hk Hp Hl. unfold decrypt_file.
  replace ((encrypted =? NULL) || (key =? NULL) || (plaintext =? NULL)
           || (encrypted_len <? 40)) with false
    by (symmetry; rewrite !orb_false_iff, !Z.eqb_neq, Z.ltb_ge; tauto).
  assert (Hs : to_size (encrypted_len - 40) = encrypted_len - 40).
  { unfold to_size, SIZE_MAX in *. apply Z.mod_small. lia. }
  rewrite Hs. unfold engine_verdict.
  unfold bind, crypto_aead_unlock, bind, load, read, load. simpl.
  destruct (aead_open _ _ _ _ _); reflexivity.
Qed.
End Runs.

(** ** What sealing leaves in memory *)

Section Layout.
Context {T : Target} {E : AeadEngine} {C : AeadContract E}.

Variables (plaintext : ptr) (plaintext_len : Z) (key output : ptr).
Variable s : state.
Hypothesis Hcall : seal_call_ok plaintext plaintext_len key output.

Let k := load_bytes (heap s) key 32.
Let p := load_bytes (heap s) plaintext plaintext_len.
Let nonce := drawn_nonce s.
Let s' := sealed_state plaintext plaintext_len key output s.

Lemma length_drawn_nonce : length nonce = 24%nat.
Proof. unfold nonce, drawn_nonce. now rewrite length_map, length_seq. Qed.

Lemma length_key : length k = 32%nat.
Proof. unfold k. now rewrite length_load_bytes. Qed.

Lemma length_plaintext : Z.of_nat (length p) = plaintext_len.
Proof.
  unfold p. rewrite length_load_bytes.
  destruct Hcall as (_ & _ & _ & Hl & _). lia.
Qed.

Lemma length_ciphertext :
  Z.of_nat (length (fst (aead_seal k nonce [] p))) = plaintext_len.
Proof.
  destruct (aead_seal_length k nonce [] p length_key length_drawn_nonce)
    as [-> _].
  apply length_plaintext.
Qed.

Lemma length_tag : length (snd (aead_seal k nonce [] p)) = 16%nat.
Proof.
  now destruct (aead_seal_length k nonce [] p length_key length_drawn_nonce).
Qed.

Lemma sealed_heap :
  heap s' =
  store_bytes
    (store_bytes (store_bytes (heap s) output nonce)
                 (output + 24 + plaintext_len) (fst (aead_seal k nonce [] p)))
    (output + 24) (snd (aead_seal k nonce [] p)).
Proof.
  destruct Hcall as (_ & _ & _ & Hl & _ & Hdp & Hdk).
  unfold s', sealed_state. cbv zeta. cbn [heap]. fold nonce.
  assert (Hk : load_bytes (store_bytes (heap s) output nonce) key 32 = k).
  { apply load_store_disjoint. rewrite length_drawn_nonce.
    unfold disjoint in *. lia. }
  assert (Hp : load_bytes (store_bytes (heap s) output nonce)
                          plaintext plaintext_len = p).
  { apply load_store_disjoint. rewrite length_drawn_nonce.
    unfold disjoint in *. lia. }
  now rewrite Hk, Hp.
Qed.

Lemma sealed_nonce : load_bytes (heap s') output 24 = nonce.
Proof.
  destruct Hcall as (_ & _ & _ & Hl & _).
  rewrite sealed_heap.
  rewrite load_store_disjoint
    by (rewrite length_tag; unfold disjoint; lia).
  rewrite load_store_disjoint
    by (rewrite length_ciphertext; unfold disjoint; lia).
  apply load_store_same. now rewrite length_drawn_nonce.
Qed.

(** The tag lies where the ciphertext was meant to start. *)
Lemma sealed_tag_at_24 :
  load_bytes (heap s') (output + 24) 16 = snd (aead_seal k nonce [] p).
Proof.
  rewrite sealed_heap. apply load_store_same. now rewrite length_tag.
Qed.

(** The ciphertext lies where the tag was meant to start; it is whole when
    the tag, written after it, does not reach it. *)
Lemma sealed_ciphertext_behind :
  16 <= plaintext_len ->
  load_bytes (heap s') (output + 24 + plaintext_len) plaintext_len =
  fst (aead_seal k nonce [] p).
Proof.
  intro H16. rewrite sealed_heap.
  rewrite load_store_disjoint
    by (rewrite length_tag; unfold disjoint; lia).
  apply load_store_same. now rewrite length_ciphertext.
Qed.

Lemma sealed_frame (a : Z) :
  a < output \/
  (output + 40 <= a /\
   (a < output + 24 + plaintext_len \/ output + 24 + 2 * plaintext_len <= a)) ->
  heap s' a = heap s a.
Proof.
  destruct Hcall as (_ & _ & _ & Hl & _).
  intro Ha. rewrite sealed_heap.
  rewrite store_bytes_outside by (rewrite length_tag; lia).
  rewrite store_bytes_outside by (rewrite length_ciphertext; lia).
  apply store_bytes_outside. rewrite length_drawn_nonce. lia.
Qed.

End Layout.

(** ** The reference engine meets the contract *)

Lemma length_ref_stream (k n : list byte) (i : nat) (p : list byte) :
  length (ref_stream k n i p) = length p.
Proof. revert i; induction p as [|b p IH]; intro i; simpl; auto. Qed.

Lemma ref_stream_involutive (k n : list byte) (i : nat) (p : list byte) :
  ref_stream k n i (ref_stream k n i p) = p.
Proof.
  revert i; induction p as [|b p IH]; intro i; simpl; [reflexivity|].
  now rewrite byte_xor_cancel_r, IH.
Qed.

Lemma length_ref_mac (k n a c : list byte) : length (ref_mac k n a c) = 16%nat.
Proof. unfold ref_mac. now rewrite length_map, length_seq. Qed.

Lemma xor_fold_app (l1 l2 : list byte) :
  xor_fold (l1 ++ l2) = byte_xor (xor_fold l1) (xor_fold l2).
Proof.
  induction l1 as [|x l1 IH]; simpl.
  - now rewrite byte_xor_x00_l.
  - fold (xor_fold (l1 ++ l2)) (xor_fold l1). now rewrite IH, byte_xor_assoc.
Qed.

Lemma xor_fold_flip (i b : nat) (l : list byte) :
  (i < length l)%nat ->
  xor_fold (flip_bit_at i b l) = byte_xor (xor_fold l) (bit_mask b).
Proof.
  revert i; induction l as [|x l IH]; intros [|i] Hi; simpl in *; try lia.
  - fold (xor_fold l). unfold flip_bit.
    rewrite !byte_xor_assoc. f_equal. apply byte_xor_comm.
  - fold (xor_fold (flip_bit_at i b l)) (xor_fold l).
    rewrite IH by lia. now rewrite byte_xor_assoc.
Qed.

Lemma ref_mac_flip (k n a c : list byte) (i b : nat) :
  (i < length c)%nat ->
  ref_mac k n a (flip_bit_at i b c) <> ref_mac k n a c.
Proof.
  intros Hi H.
  apply (f_equal (fun t => hd x00 t)) in H.
  unfold ref_mac in H. cbn [seq map hd] in H.
  apply byte_xor_inj_r in H.
  rewrite !xor_fold_app, xor_fold_flip in H by assumption.
  apply byte_xor_inj_r in H.
  apply (bit_mask_nonzero b), (byte_xor_inj_r _ _ (xor_fold c)).
  now rewrite byte_xor_x00_r.
Qed.

Lemma ref_engine_contract : AeadContract ref_engine.
Proof.
  split; cbn [aead_seal aead_open ref_engine].
  - intros k n a p _ _. unfold ref_seal. cbn [fst snd].
    split; [apply length_ref_stream | apply length_ref_mac].
  - intros k n a p _ _. unfold ref_seal, ref_open; cbn [fst snd].
    now rewrite bytes_eqb_refl, ref_stream_involutive.
  - intros k n a c t p. unfold ref_open.
    destruct (bytes_eqb _ _); [|discriminate].
    intro H. injection H as <-. apply length_ref_stream.
Qed.

Lemma ref_engine_tamper_evident : AeadTamperEvident ref_engine.
Proof.
  intros k n a p i b _ _. cbn [aead_seal aead_open ref_engine].
  unfold ref_seal. cbn [fst snd].
  set (c := ref_stream k n 0 p).
  assert (Hc : length c = length p) by apply length_ref_stream.
  rewrite length_app, length_ref_mac. intros Hi Hb.
  unfold ref_open.
  destruct (Nat.lt_ge_cases i (length c)) as [Hlt | Hge].
  - rewrite flip_bit_at_app_l by assumption.
    replace (length p) with (length (flip_bit_at i b c))
      by (rewrite length_flip_bit_at; exact Hc).
    rewrite firstn_app, Nat.sub_diag, firstn_all, firstn_O, app_nil_r.
    rewrite skipn_app, Nat.sub_diag, skipn_all. simpl.
    rewrite bytes_eqb_neq; [reflexivity|].
    intro H. symmetry in H. now apply ref_mac_flip in H.
  - rewrite flip_bit_at_app_r by assumption.
    rewrite <- Hc.
    rewrite firstn_app, Nat.sub_diag, firstn_all, firstn_O, app_nil_r.
    rewrite skipn_app, Nat.sub_diag, skipn_all. simpl.
    rewrite bytes_eqb_neq; [reflexivity|].
    apply flip_bit_at_neq. rewrite length_ref_mac. lia.
Qed.




(** ** Observations on runs *)

Lemma calls_since_app (s s' : state) (evs : list event) :
  trace s' = evs ++ trace s -> calls_since s s' = evs.
Proof.
  intro H. unfold calls_since. rewrite H, length_app.
  replace (length evs + length (trace s) - length (trace s))%nat
    with (length evs + 0)%nat by lia.
  now rewrite firstn_app_2, firstn_O, app_nil_r.
Qed.

Lemma calls_since_refl (s : state) : calls_since s s = [].
Proof. now apply (calls_since_app s s []). Qed.

Lemma static_cast_int_small (x : Z) :
  0 <= x <= INT_MAX -> static_cast_int x = x.
Proof.
  unfold static_cast_int, INT_MAX. intro H.
  rewrite Z.mod_small by (change (2 ^ 32) with 4294967296; lia).
  destruct (Z.leb_spec x 2147483647); [reflexivity | lia].
Qed.

Lemma static_cast_int_range (x : Z) : INT_MIN <= static_cast_int x <= INT_MAX.
Proof.
  unfold static_cast_int, INT_MIN, INT_MAX.
  change (2 ^ 32) with 4294967296.
  pose proof (Z.mod_pos_bound x 4294967296 ltac:(lia)).
  destruct (Z.leb_spec (x mod 4294967296) 2147483647); lia.
Qed.

Lemma to_size_small {T : Target} (x : Z) : 0 <= x <= SIZE_MAX -> to_size x = x.
Proof. unfold to_size, SIZE_MAX. intro H. apply Z.mod_small. lia. Qed.

Lemma failure_kind_accepted (r n : Z) (evs : list event) :
  failure_kind r (EvAeadUnlock n 0 :: evs) = None.
Proof. unfold failure_kind. now destruct (r =? -1). Qed.

Section Opening.
Context {T : Target} {E : AeadEngine} {C : AeadContract E}.

(** The three fields of a blob that is an envelope. *)
Lemma envelope_fields (m : memory) (e : ptr) (len : Z) (n k p : list byte) :
  length k = 32%nat -> length n = 24%nat -> 40 <= len ->
  load_bytes m e len = envelope n k p ->
  Z.of_nat (length p) = len - 40 /\
  load_bytes m e 24 = n /\
  load_bytes m (e + 24) (len - 40) = fst (aead_seal k n [] p) /\
  load_bytes m (e + 24 + (len - 40)) 16 = snd (aead_seal k n [] p).
Proof.
  intros Hk Hn Hlen Hblob.
  destruct (aead_seal_length k n [] p Hk Hn) as [Hc Ht].
  assert (Hp : Z.of_nat (length p) = len - 40).
  { apply (f_equal (@length byte)) in Hblob.
    unfold envelope in Hblob.
    rewrite length_load_bytes, !length_app, Hn, Hc, Ht in Hblob. lia. }
  split; [exact Hp|].
  replace len with (24 + ((len - 40) + 16)) in Hblob at 1 by lia.
  rewrite load_bytes_app in Hblob by lia.
  rewrite load_bytes_app in Hblob by lia.
  unfold envelope in Hblob.
  apply app_inj_length in Hblob as [H1 Hrest];
    [|rewrite length_load_bytes, Hn; reflexivity].
  apply app_inj_length in Hrest as [H2 H3];
    [|rewrite length_load_bytes, Hc; lia].
  now repeat split.
Qed.

(** What the engine is asked when a blob that is an envelope sealed under
    [k] is opened with the key at [key]. *)
Lemma envelope_verdict (encrypted : ptr) (encrypted_len : Z) (key : ptr)
      (n k p : list byte) (s : state) :
  length k = 32%nat -> length n = 24%nat -> 40 <= encrypted_len ->
  load_bytes (heap s) encrypted encrypted_len = envelope n k p ->
  engine_verdict encrypted encrypted_len key s =
  aead_open (load_bytes (heap s) key 32) n []
            (fst (aead_seal k n [] p)) (snd (aead_seal k n [] p)).
Proof.
  intros Hk Hn Hlen Hblob.
  destruct (envelope_fields _ _ _ _ _ _ Hk Hn Hlen Hblob)
    as (_ & H1 & H2 & H3).
  unfold engine_verdict. now rewrite H1, H2, H3.
Qed.

Lemma envelope_verdict_same_key (encrypted : ptr) (encrypted_len : Z)
      (key : ptr) (n p : list byte) (s : state) :
  length n = 24%nat -> 40 <= encrypted_len ->
  load_bytes (heap s) encrypted encrypted_len =
    envelope n (load_bytes (heap s) key 32) p ->
  engine_verdict encrypted encrypted_len key s = Some p.
Proof.
  intros Hn Hlen Hblob.
  assert (Hk : length (load_bytes (heap s) key 32) = 32%nat)
    by now rewrite length_load_bytes.
  rewrite (envelope_verdict _ _ _ _ _ _ _ Hk Hn Hlen Hblob).
  now apply aead_open_seal.
Qed.
End Opening.

Ltac call_ok :=
  unfold seal_call_ok, SIZE_MAX, disjoint, NULL; cbn [size_bits wasm32 wasm64];
  repeat split; lia.

(* ===================================================================== *)
(** * The claims *)
(* ===================================================================== *)

(** C1 (round trip), evaluated where it breaks.  [encrypt_file] hands the
    engine the pointer it calls [mac] where the ciphertext is written and
    the pointer it calls [ciphertext] where the tag is written.  Sealing
    the five bytes of [demo_plaintext] returns 45 and leaves at [output]
    the nonce, then the 16-byte tag, then five bytes that were never
    written; [decrypt_file] with the same key on these 45 bytes is refused
    by the engine and returns -1. *)
Theorem seal_then_open_fails :
  let k := load_bytes (heap demo_state) 128 32 in
  let p := load_bytes (heap demo_state) 64 5 in
  let n := drawn_nonce demo_state in
  let sealed :=
    encrypt_file (T := wasm32) (E := ref_engine) 64 5 128 1024 demo_state in
  let opened :=
    decrypt_file (T := wasm32) (E := ref_engine) 1024 45 128 2048
                 (snd sealed) in
  seal_call_ok (T := wasm32) 64 5 128 1024 /\
  fst sealed = 45 /\
  load_bytes (heap (snd sealed)) 1024 45 =
    n ++ snd (aead_seal (AeadEngine := ref_engine) k n [] p)
      ++ repeat x00 5 /\
  load_bytes (heap (snd sealed)) 1024 45 <>
    envelope (E := ref_engine) n k p /\
  fst opened = -1 /\
  failure_kind (fst opened) (calls_since (snd sealed) (snd opened))
    = Some AuthenticationFailure /\
  load_bytes (heap (snd opened)) 2048 5 <> p.
Proof.
  intros k p n sealed opened.
  split; [call_ok|].
  split; [vm_compute; reflexivity|].
  split; [vm_compute; reflexivity|].
  split; [vm_compute; discriminate|].
  split; [vm_compute; reflexivity|].
  split; [vm_compute; reflexivity|].
  vm_compute; discriminate.
Qed.

(** C5 (opener success postcondition).  Whenever a call of [decrypt_file]
    is no failure, the engine has released a plaintext of exactly
    [encrypted_len - 40] bytes, that plaintext is what the call wrote to
    the caller's buffer, and the returned value is
    [static_cast<int>(encrypted_len - 40)].  When the blob is the envelope
    of section 3 (nonce, ciphertext, tag) of a plaintext sealed under the
    same key, the plaintext is the one that was sealed. *)
Theorem open_success_postcondition
    {T : Target} {E : AeadEngine} {C : AeadContract E}
    (encrypted : ptr) (encrypted_len : Z) (key plaintext : ptr) (s : state) :
  0 <= encrypted_len <= SIZE_MAX ->
  let opened := decrypt_file encrypted encrypted_len key plaintext s in
  failure_kind (fst opened) (calls_since s (snd opened)) = None ->
  exists p,
    Z.of_nat (length p) = encrypted_len - 40 /\
    heap (snd opened) = store_bytes (heap s) plaintext p /\
    load_bytes (heap (snd opened)) plaintext (encrypted_len - 40) = p /\
    fst opened = static_cast_int (encrypted_len - 40) /\
    (encrypted_len - 40 <= INT_MAX -> fst opened = encrypted_len - 40) /\
    (forall n p0,
        length n = 24%nat ->
        load_bytes (heap s) encrypted encrypted_len =
          envelope n (load_bytes (heap s) key 32) p0 ->
        p = p0).
Proof.
  intros Hlen opened Hok.
  destruct (Z.eq_dec encrypted NULL) as [He | He];
    [exfalso; revert Hok; unfold opened;
     rewrite decrypt_file_rejects by tauto; cbn [fst snd];
     rewrite calls_since_refl; discriminate |].
  destruct (Z.eq_dec key NULL) as [Hk | Hk];
    [exfalso; revert Hok; unfold opened;
     rewrite decrypt_file_rejects by tauto; cbn [fst snd];
     rewrite calls_since_refl; discriminate |].
  destruct (Z.eq_dec plaintext NULL) as [Hp | Hp];
    [exfalso; revert Hok; unfold opened;
     rewrite decrypt_file_rejects by tauto; cbn [fst snd];
     rewrite calls_since_refl; discriminate |].
  destruct (Z_lt_ge_dec encrypted_len 40) as [Hs | Hs];
    [exfalso; revert Hok; unfold opened;
     rewrite decrypt_file_rejects by tauto; cbn [fst snd];
     rewrite calls_since_refl; discriminate |].
  assert (Hrange : 40 <= encrypted_len <= SIZE_MAX) by lia.
  assert (Hrun := decrypt_file_runs encrypted encrypted_len key plaintext s
                    He Hk Hp Hrange).
  fold opened in Hrun.
  destruct (engine_verdict encrypted encrypted_len key s) as [p|] eqn:Hv.
  - exists p. rewrite Hrun. cbn [fst snd heap].
    assert (Hp_len : Z.of_nat (length p) = encrypted_len - 40).
    { unfold engine_verdict in Hv. apply aead_open_length in Hv.
      rewrite Hv, length_load_bytes. lia. }
    repeat split.
    + exact Hp_len.
    + apply load_store_same. now rewrite Hp_len.
    + intro Hi. apply static_cast_int_small. lia.
    + intros n p0 Hn Hblob.
      rewrite (envelope_verdict_same_key _ _ _ n p0) in Hv
        by (assumption || lia).
      congruence.
  - exfalso. revert Hok. rewrite Hrun. cbn [fst snd].
    rewrite (calls_since_app _ _ [EvAeadUnlock (encrypted_len - 40) (-1)])
      by reflexivity.
    discriminate.
Qed.

Lemma open_success_postcondition_witness :
  let s := demo_sealed_state in
  let opened :=
    decrypt_file (T := wasm32) (E := ref_engine) 1024 45 128 2048 s in
  0 <= 45 <= SIZE_MAX (T := wasm32) /\
  failure_kind (fst opened) (calls_since s (snd opened)) = None /\
  exists p,
    Z.of_nat (length p) = 45 - 40 /\
    heap (snd opened) = store_bytes (heap s) 2048 p /\
    load_bytes (heap (snd opened)) 2048 (45 - 40) = p /\
    fst opened = static_cast_int (45 - 40) /\
    (45 - 40 <= INT_MAX -> fst opened = 45 - 40) /\
    (forall n p0,
        length n = 24%nat ->
        load_bytes (heap s) 1024 45 =
          envelope (E := ref_engine) n (load_bytes (heap s) 128 32) p0 ->
        p = p0).
Proof.
  intros s opened.
  assert (H1 : 0 <= 45 <= SIZE_MAX (T := wasm32))
    by (unfold SIZE_MAX; cbn [size_bits wasm32]; lia).
  assert (H2 : failure_kind (fst opened) (calls_since s (snd opened)) = None)
    by (vm_compute; reflexivity).
  split; [exact H1 | split; [exact H2 |]].
  exact (open_success_postcondition (T := wasm32) (C := ref_engine_contract)
           1024 45 128 2048 s H1 H2).
Defined.

(** C4 (length law), evaluated where it breaks.  A well-formed call with a
    plaintext of 2147483608 bytes passes validation, runs to its end and
    returns -2147483648, not the 2147483648 bytes of its output. *)
Theorem seal_reported_length_overflows
    {T : Target} {E : AeadEngine}
    (plaintext key output : ptr) (s : state) :
  seal_call_ok plaintext 2147483608 key output ->
  let sealed := encrypt_file plaintext 2147483608 key output s in
  calls_since s (snd sealed) =
    [EvWipe 24; EvAeadLock 2147483608; EvGetRandomValues 24] /\
  fst sealed = -2147483648.
Proof.
  intros Hcall sealed.
  pose proof Hcall as (Hp & Hk & Ho & Hl & Hs & _).
  unfold sealed. rewrite encrypt_file_runs by (try assumption; lia).
  cbn [fst snd]. split.
  - now apply calls_since_app.
  - rewrite to_size_small by lia. reflexivity.
Qed.

Lemma seal_reported_length_overflows_witness :
  let sealed :=
    encrypt_file (T := wasm64) (E := ref_engine)
                 4096 2147483608 64 4294967296 zero_state in
  seal_call_ok (T := wasm64) 4096 2147483608 64 4294967296 /\
  calls_since zero_state (snd sealed) =
    [EvWipe 24; EvAeadLock 2147483608; EvGetRandomValues 24] /\
  fst sealed = -2147483648.
Proof.
  intro sealed.
  assert (H1 : seal_call_ok (T := wasm64) 4096 2147483608 64 4294967296)
    by call_ok.
  split; [exact H1 |].
  exact (seal_reported_length_overflows (T := wasm64) (E := ref_engine)
           4096 64 4294967296 zero_state H1).
Defined.

(** C6 (boundary rejection).  [decrypt_file] on a blob of fewer than 40
    bytes, whatever the key, and [encrypt_file] on an empty plaintext both
    return -1 as a rejected input, leave the machine state as it was and
    call neither the random source nor the engine. *)
Theorem boundary_rejection {T : Target} {E : AeadEngine}
    (encrypted : ptr) (encrypted_len : Z) (key recovered : ptr)
    (plaintext key' output : ptr) (s : state) :
  encrypted_len < 40 ->
  let opened := decrypt_file encrypted encrypted_len key recovered s in
  let sealed := encrypt_file plaintext 0 key' output s in
  (fst opened = -1 /\ snd opened = s /\
   calls_since s (snd opened) = [] /\
   failure_kind (fst opened) (calls_since s (snd opened)) = Some InvalidInput)
  /\
  (fst sealed = -1 /\ snd sealed = s /\
   calls_since s (snd sealed) = [] /\
   failure_kind (fst sealed) (calls_since s (snd sealed)) = Some InvalidInput).
Proof.
  intros Hshort opened sealed. unfold opened, sealed.
  rewrite decrypt_file_rejects by tauto.
  rewrite encrypt_file_rejects by tauto.
  cbn [fst snd]. rewrite calls_since_refl. repeat split.
Qed.

Lemma boundary_rejection_witness :
  let opened :=
    decrypt_file (T := wasm32) (E := ref_engine) 64 39 128 2048 demo_state in
  let sealed :=
    encrypt_file (T := wasm32) (E := ref_engine) 64 0 128 1024 demo_state in
  39 < 40 /\
  (fst opened = -1 /\ snd opened = demo_state /\
   calls_since demo_state (snd opened) = [] /\
   failure_kind (fst opened) (calls_since demo_state (snd opened))
     = Some InvalidInput)
  /\
  (fst sealed = -1 /\ snd sealed = demo_state /\
   calls_since demo_state (snd sealed) = [] /\
   failure_kind (fst sealed) (calls_since demo_state (snd sealed))
     = Some InvalidInput).
Proof.
  intros opened sealed.
  assert (H1 : 39 < 40) by lia.
  split; [exact H1 |].
  exact (boundary_rejection (T := wasm32) (E := ref_engine)
           64 39 128 2048 64 128 1024 demo_state H1).
Defined.

(** C7 as the code has it.  Every failure is reported by the same value:
    a null pointer or an empty plaintext makes [encrypt_file] return -1, a
    null pointer or a blob shorter than 40 bytes makes [decrypt_file]
    return -1, and so does a tag the engine refuses.  The kind of the
    failure follows from which check failed, not from the value
    returned. *)
Theorem failures_share_return_value {T : Target} {E : AeadEngine}
    (plaintext : ptr) (plaintext_len : Z) (key output : ptr)
    (encrypted : ptr) (encrypted_len : Z) (key' recovered : ptr)
    (s : state) :
  0 <= encrypted_len <= SIZE_MAX ->
  let sealed := encrypt_file plaintext plaintext_len key output s in
  let opened := decrypt_file encrypted encrypted_len key' recovered s in
  (plaintext = NULL \/ key = NULL \/ output = NULL \/ plaintext_len = 0 ->
   fst sealed = -1 /\
   failure_kind (fst sealed) (calls_since s (snd sealed)) = Some InvalidInput)
  /\
  (encrypted = NULL \/ key' = NULL \/ recovered = NULL \/ encrypted_len < 40 ->
   fst opened = -1 /\
   failure_kind (fst opened) (calls_since s (snd opened)) = Some InvalidInput)
  /\
  (encrypted <> NULL -> key' <> NULL -> recovered <> NULL ->
   40 <= encrypted_len ->
   engine_verdict encrypted encrypted_len key' s = None ->
   fst opened = -1 /\
   failure_kind (fst opened) (calls_since s (snd opened))
     = Some AuthenticationFailure).
Proof.
  intros Hlen sealed opened. split; [|split].
  - intro Hguard. unfold sealed.
    rewrite encrypt_file_rejects by assumption.
    cbn [fst snd]. now rewrite calls_since_refl.
  - intro Hguard. unfold opened.
    rewrite decrypt_file_rejects by assumption.
    cbn [fst snd]. now rewrite calls_since_refl.
  - intros He Hk Hr Hl Hv. unfold opened.
    rewrite decrypt_file_runs by (try assumption; lia).
    rewrite Hv. cbn [fst snd].
    now rewrite (calls_since_app _ _ [EvAeadUnlock (encrypted_len - 40) (-1)]).
Qed.

Lemma failures_share_return_value_witness :
  let s := snd (encrypt_file (T := wasm32) (E := ref_engine)
                             64 5 128 1024 demo_state) in
  let sealed := encrypt_file (T := wasm32) (E := ref_engine) 64 0 128 4096 s in
  let short := decrypt_file (T := wasm32) (E := ref_engine) 1024 39 192 2048 s in
  let forged := decrypt_file (T := wasm32) (E := ref_engine) 1024 45 192 2048 s in
  0 <= 39 <= SIZE_MAX (T := wasm32) /\ 0 <= 45 <= SIZE_MAX (T := wasm32) /\
  engine_verdict (E := ref_engine) 1024 45 192 s = None /\
  (fst sealed = -1 /\
   failure_kind (fst sealed) (calls_since s (snd sealed)) = Some InvalidInput)
  /\
  (fst short = -1 /\
   failure_kind (fst short) (calls_since s (snd short)) = Some InvalidInput)
  /\
  (fst forged = -1 /\
   failure_kind (fst forged) (calls_since s (snd forged))
     = Some AuthenticationFailure).
Proof.
  intros s sealed short forged.
  assert (H1 : 0 <= 39 <= SIZE_MAX (T := wasm32))
    by (unfold SIZE_MAX; cbn [size_bits wasm32]; lia).
  assert (H2 : 0 <= 45 <= SIZE_MAX (T := wasm32))
    by (unfold SIZE_MAX; cbn [size_bits wasm32]; lia).
  assert (H3 : engine_verdict (E := ref_engine) 1024 45 192 s = None)
    by (vm_compute; reflexivity).
  split; [exact H1 | split; [exact H2 | split; [exact H3 |]]].
  pose proof (failures_share_return_value (T := wasm32) (E := ref_engine)
                64 0 128 4096 1024 39 192 2048 s H1) as (Hs & Hshort & _).
  pose proof (failures_share_return_value (T := wasm32) (E := ref_engine)
                64 0 128 4096 1024 45 192 2048 s H2) as (_ & _ & Hforged).
  split; [apply Hs; right; right; right; reflexivity |].
  split; [apply Hshort; right; right; right; lia |].
  apply Hforged; unfold NULL; try lia. exact H3.
Defined.

(** C8 (no partial result on error).  A call of [encrypt_file] that fails
    returns -1 and leaves the whole machine state as it was: nothing is
    written to the output buffer, no random bytes are consumed.  A call of
    [decrypt_file] that fails, for either reason, returns -1 and leaves
    memory and entropy as they were: no plaintext byte is written. *)
Theorem no_partial_result_on_error {T : Target} {E : AeadEngine}
    (plaintext : ptr) (plaintext_len : Z) (key output : ptr)
    (encrypted : ptr) (encrypted_len : Z) (key' recovered : ptr)
    (s : state) :
  0 <= encrypted_len <= SIZE_MAX ->
  let sealed := encrypt_file plaintext plaintext_len key output s in
  let opened := decrypt_file encrypted encrypted_len key' recovered s in
  (failure_kind (fst sealed) (calls_since s (snd sealed)) <> None ->
   fst sealed = -1 /\ snd sealed = s)
  /\
  (failure_kind (fst opened) (calls_since s (snd opened)) <> None ->
   fst opened = -1 /\
   heap (snd opened) = heap s /\ entropy (snd opened) = entropy s).
Proof.
  intros Hlen sealed opened. split.
  - intro Hfail.
    destruct (Z.eq_dec plaintext NULL) as [Hp | Hp];
      [unfold sealed; now rewrite encrypt_file_rejects by tauto |].
    destruct (Z.eq_dec key NULL) as [Hk | Hk];
      [unfold sealed; now rewrite encrypt_file_rejects by tauto |].
    destruct (Z.eq_dec output NULL) as [Ho | Ho];
      [unfold sealed; now rewrite encrypt_file_rejects by tauto |].
    destruct (Z.eq_dec plaintext_len 0) as [Hl | Hl];
      [unfold sealed; now rewrite encrypt_file_rejects by tauto |].
    exfalso. apply Hfail. unfold sealed.
    rewrite encrypt_file_runs by assumption. cbn [fst snd].
    rewrite (calls_since_app _ _
               [EvWipe 24; EvAeadLock plaintext_len; EvGetRandomValues 24])
      by reflexivity.
    unfold failure_kind. now destruct (_ =? -1).
  - intro Hfail.
    destruct (Z.eq_dec encrypted NULL) as [He | He];
      [unfold opened; now rewrite decrypt_file_rejects by tauto |].
    destruct (Z.eq_dec key' NULL) as [Hk | Hk];
      [unfold opened; now rewrite decrypt_file_rejects by tauto |].
    destruct (Z.eq_dec recovered NULL) as [Hr | Hr];
      [unfold opened; now rewrite decrypt_file_rejects by tauto |].
    destruct (Z_lt_ge_dec encrypted_len 40) as [Hs | Hs];
      [unfold opened; now rewrite decrypt_file_rejects by tauto |].
    assert (Hrange : 40 <= encrypted_len <= SIZE_MAX) by lia.
    revert Hfail. unfold opened.
    rewrite decrypt_file_runs by assumption.
    destruct (engine_verdict encrypted encrypted_len key' s) as [p|].
    + cbn [fst snd]. intro Hfail. exfalso. apply Hfail.
      rewrite (calls_since_app _ _ [EvAeadUnlock (encrypted_len - 40) 0])
        by reflexivity.
      apply failure_kind_accepted.
    + intros _. now cbn [fst snd heap entropy].
Qed.

Lemma no_partial_result_on_error_witness :
  let s := snd (encrypt_file (T := wasm32) (E := ref_engine)
                             64 5 128 1024 demo_state) in
  let sealed := encrypt_file (T := wasm32) (E := ref_engine) 0 5 128 4096 s in
  let opened := decrypt_file (T := wasm32) (E := ref_engine) 1024 45 192 2048 s in
  0 <= 45 <= SIZE_MAX (T := wasm32) /\
  failure_kind (fst sealed) (calls_since s (snd sealed)) <> None /\
  failure_kind (fst opened) (calls_since s (snd opened)) <> None /\
  (fst sealed = -1 /\ snd sealed = s) /\
  (fst opened = -1 /\
   heap (snd opened) = heap s /\ entropy (snd opened) = entropy s).
Proof.
  intros s sealed opened.
  assert (H1 : 0 <= 45 <= SIZE_MAX (T := wasm32))
    by (unfold SIZE_MAX; cbn [size_bits wasm32]; lia).
  assert (H2 : failure_kind (fst sealed) (calls_since s (snd sealed)) <> None)
    by (vm_compute; discriminate).
  assert (H3 : failure_kind (fst opened) (calls_since s (snd opened)) <> None)
    by (vm_compute; discriminate).
  split; [exact H1 | split; [exact H2 | split; [exact H3 |]]].
  destruct (no_partial_result_on_error (T := wasm32) (E := ref_engine)
              0 5 128 4096 1024 45 192 2048 s H1) as [Hs Ho].
  split; [exact (Hs H2) | exact (Ho H3)].
Defined.

(** Counterexample to C7 as stated.  On the same machine state, a blob that
    is too short and a blob whose tag does not verify give the same
    returned value and leave the same memory: no function of the result
    tells the two kinds of failure apart. *)
Lemma error_kind_not_in_result :
  ~ exists tell : Z * memory -> Error,
      forall (s : state) (encrypted : ptr) (encrypted_len : Z)
             (key recovered : ptr) (e : Error),
        let opened := decrypt_file (T := wasm32) (E := ref_engine)
                                   encrypted encrypted_len key recovered s in
        failure_kind (fst opened) (calls_since s (snd opened)) = Some e ->
        tell (fst opened, heap (snd opened)) = e.
Proof.
  intros [tell H].
  pose (s := snd (encrypt_file (T := wasm32) (E := ref_engine)
                               64 5 128 1024 demo_state)).
  assert (H1 := H s 1024 39 192 2048 InvalidInput).
  assert (H2 := H s 1024 45 192 2048 AuthenticationFailure).
  cbv zeta in H1, H2.
  specialize (H1 ltac:(vm_compute; reflexivity)).
  specialize (H2 ltac:(vm_compute; reflexivity)).
  assert (Hsame : InvalidInput = AuthenticationFailure).
  { rewrite <- H1. exact H2. }
  discriminate Hsame.
Qed.

(** ** The reference engine on zeroed memory *)

Lemma load_bytes_zero (q : ptr) (n : Z) :
  load_bytes (fun _ => x00) q n = repeat x00 (Z.to_nat n).
Proof.
  unfold load_bytes.
  rewrite map_const. now rewrite length_seq.
Qed.

Lemma xor_fold_zero (n : nat) : xor_fold (repeat x00 n) = x00.
Proof.
  induction n as [|n IH]; [reflexivity|].
  simpl. fold (xor_fold (repeat x00 n)). now rewrite IH.
Qed.

Lemma nth_zero (i n : nat) : nth i (repeat x00 n) x00 = x00.
Proof.
  revert i; induction n as [|n IH]; intros [|i]; simpl; auto.
Qed.

Lemma ref_stream_zero_key (a b i : nat) (c : list byte) :
  ref_stream (repeat x00 a) (repeat x00 b) i c = c.
Proof.
  revert i; induction c as [|x c IH]; intro i; simpl; [reflexivity|].
  unfold ref_pad. rewrite !nth_zero, IH.
  now rewrite byte_xor_nilpotent, byte_xor_x00_r.
Qed.

Lemma ref_mac_zero (a b n : nat) :
  ref_mac (repeat x00 a) (repeat x00 b) [] (repeat x00 n) = repeat x00 16.
Proof.
  unfold ref_mac. cbn [app]. rewrite xor_fold_zero.
  rewrite (map_ext _ (fun _ => x00)).
  - now rewrite map_const, length_seq.
  - intro i. rewrite !nth_zero. reflexivity.
Qed.

Lemma zero_state_verdict (encrypted : ptr) (encrypted_len : Z) (key : ptr) :
  engine_verdict (E := ref_engine) encrypted encrypted_len key zero_state =
  Some (repeat x00 (Z.to_nat (encrypted_len - 40))).
Proof.
  unfold engine_verdict, zero_state. cbn [heap aead_open ref_engine].
  rewrite !load_bytes_zero. unfold ref_open.
  rewrite ref_mac_zero. change (Z.to_nat 16) with 16%nat.
  now rewrite bytes_eqb_refl, ref_stream_zero_key.
Qed.

Lemma pow_size_bits {T : Target} : 32 <= size_bits -> 4294967296 <= 2 ^ size_bits.
Proof.
  intro H. change 4294967296 with (2 ^ 32).
  apply Z.pow_le_mono_r; lia.
Qed.

(** C10 (return value at the [int] cast).  [encrypt_file] returns
    [static_cast<int>(plaintext_len + 40)] and [decrypt_file], when the
    engine accepts, [static_cast<int>(encrypted_len - 40)].  They are the
    true lengths as long as these fit an [int]; beyond that the returned
    value never is the true length, it is negative for some inputs, and a
    successful call can return the error value -1. *)
Theorem returned_length_overflows {T : Target} {E : AeadEngine}
    (plaintext : ptr) (plaintext_len : Z) (key output : ptr)
    (encrypted : ptr) (encrypted_len : Z) (key' recovered : ptr)
    (p : list byte) (s s' : state) :
  32 <= size_bits ->
  plaintext <> NULL -> key <> NULL -> output <> NULL ->
  0 < plaintext_len <= SIZE_MAX ->
  encrypted <> NULL -> key' <> NULL -> recovered <> NULL ->
  40 <= encrypted_len <= SIZE_MAX ->
  engine_verdict encrypted encrypted_len key' s' = Some p ->
  let sealed_len := fst (encrypt_file plaintext plaintext_len key output s) in
  let opened_len :=
    fst (decrypt_file encrypted encrypted_len key' recovered s') in
  sealed_len = static_cast_int (to_size (plaintext_len + 40)) /\
  opened_len = static_cast_int (to_size (encrypted_len - 40)) /\
  (plaintext_len + 40 <= INT_MAX -> sealed_len = plaintext_len + 40) /\
  (INT_MAX - 40 < plaintext_len -> sealed_len <> plaintext_len + 40) /\
  (plaintext_len = 2147483608 -> sealed_len = INT_MIN) /\
  (plaintext_len = 4294967255 -> sealed_len = -1) /\
  (encrypted_len - 40 <= INT_MAX -> opened_len = encrypted_len - 40) /\
  (INT_MAX + 40 < encrypted_len -> opened_len <> encrypted_len - 40) /\
  (encrypted_len = 2147483688 -> opened_len = INT_MIN) /\
  (encrypted_len = 4294967335 -> opened_len = -1).
Proof.
  intros Hbits Hp Hk Ho Hl He Hk' Hr Hel Hv sealed_len opened_len.
  pose proof (pow_size_bits Hbits) as Hpow.
  assert (Hsealed : sealed_len = static_cast_int (to_size (plaintext_len + 40))).
  { unfold sealed_len. rewrite encrypt_file_runs by (try assumption; lia).
    reflexivity. }
  assert (Hopened : opened_len = static_cast_int (encrypted_len - 40)).
  { unfold opened_len. rewrite decrypt_file_runs by assumption.
    now rewrite Hv. }
  assert (Hsize : forall x, 0 <= x < 4294967296 -> to_size x = x).
  { intros x Hx. unfold to_size. apply Z.mod_small. lia. }
  split; [exact Hsealed |].
  split; [rewrite to_size_small by lia; exact Hopened |].
  repeat split.
  - intro Hi. rewrite Hsealed, Hsize by (unfold INT_MAX in Hi; lia).
    apply static_cast_int_small. lia.
  - intros Hi Heq. rewrite Hsealed in Heq.
    pose proof (static_cast_int_range (to_size (plaintext_len + 40))). lia.
  - intros ->. rewrite Hsealed, Hsize by lia. reflexivity.
  - intros ->. rewrite Hsealed, Hsize by lia. reflexivity.
  - intro Hi. rewrite Hopened. apply static_cast_int_small. lia.
  - intros Hi Heq. rewrite Hopened in Heq.
    pose proof (static_cast_int_range (encrypted_len - 40)). lia.
  - intros ->. rewrite Hopened. reflexivity.
  - intros ->. rewrite Hopened. reflexivity.
Qed.

Lemma returned_length_overflows_witness :
  let sealed_len :=
    fst (encrypt_file (T := wasm64) (E := ref_engine)
                      4096 4294967255 64 8589934592 zero_state) in
  let opened_len :=
    fst (decrypt_file (T := wasm64) (E := ref_engine)
                      4096 2147483688 64 8589934592 zero_state) in
  (32 <= size_bits (Target := wasm64) /\
   4096 <> NULL /\ 64 <> NULL /\ 8589934592 <> NULL /\
   0 < 4294967255 <= SIZE_MAX (T := wasm64) /\
   40 <= 2147483688 <= SIZE_MAX (T := wasm64) /\
   engine_verdict (E := ref_engine) 4096 2147483688 64 zero_state =
     Some (repeat x00 (Z.to_nat (2147483688 - 40)))) /\
  sealed_len = -1 /\ opened_len = INT_MIN.
Proof.
  intros sealed_len opened_len.
  assert (H0 : 32 <= size_bits (Target := wasm64)) by (cbn; lia).
  assert (H1 : 4096 <> NULL) by (unfold NULL; lia).
  assert (H2 : 64 <> NULL) by (unfold NULL; lia).
  assert (H3 : 8589934592 <> NULL) by (unfold NULL; lia).
  assert (H4 : 0 < 4294967255 <= SIZE_MAX (T := wasm64))
    by (unfold SIZE_MAX; cbn [size_bits wasm64]; lia).
  assert (H5 : 40 <= 2147483688 <= SIZE_MAX (T := wasm64))
    by (unfold SIZE_MAX; cbn [size_bits wasm64]; lia).
  assert (H6 := zero_state_verdict 4096 2147483688 64).
  split; [exact (conj H0 (conj H1 (conj H2 (conj H3 (conj H4 (conj H5 H6)))))) |].
  destruct (returned_length_overflows (T := wasm64) (E := ref_engine)
              4096 4294967255 64 8589934592 4096 2147483688 64 8589934592
              _ zero_state zero_state H0 H1 H2 H3 H4 H1 H2 H3 H5 H6)
    as (_ & _ & _ & _ & _ & Hs & _ & _ & Ho & _).
  split; [exact (Hs eq_refl) | exact (Ho eq_refl)].
Defined.

(** ** Tampering with a sealed envelope *)

Lemma firstn_app_exact (n : nat) (l1 l2 : list byte) :
  n = length l1 -> firstn n (l1 ++ l2) = l1.
Proof.
  intros ->. now rewrite firstn_app, Nat.sub_diag, firstn_all, firstn_O, app_nil_r.
Qed.

Lemma skipn_app_exact (n : nat) (l1 l2 : list byte) :
  n = length l1 -> skipn n (l1 ++ l2) = l2.
Proof.
  intros ->. now rewrite skipn_app, Nat.sub_diag, skipn_all.
Qed.

Lemma load_poke_outside (m : memory) (a : ptr) (v : byte) (q : ptr) (n : Z) :
  a < q \/ q + n <= a ->
  load_bytes (poke m a v) q n = load_bytes m q n.
Proof.
  intro H. apply load_bytes_ext. intros a' Ha'. unfold poke.
  destruct (Z.eqb_spec a' a); [lia | reflexivity].
Qed.

Lemma load_bytes_one (m : memory) (q : ptr) : load_bytes m q 1 = [m q].
Proof. unfold load_bytes. simpl. now rewrite Z.add_0_r. Qed.

Lemma load_poke_flip (m : memory) (q : ptr) (n i : Z) (b : nat) :
  0 <= i < n ->
  load_bytes (poke m (q + i) (flip_bit b (m (q + i)))) q n =
  flip_bit_at (Z.to_nat i) b (load_bytes m q n).
Proof.
  intro Hi.
  replace n with (i + (1 + (n - i - 1))) by lia.
  rewrite !load_bytes_app by lia.
  rewrite load_poke_outside by lia.
  rewrite (load_poke_outside _ _ _ (q + i + 1)) by lia.
  rewrite !load_bytes_one.
  rewrite flip_bit_at_app_r by (rewrite length_load_bytes; lia).
  rewrite length_load_bytes, Nat.sub_diag. cbn [app flip_bit_at].
  unfold poke at 1. now rewrite Z.eqb_refl.
Qed.

(** C2 (tamper detection).  Take a machine state that holds at [encrypted]
    the envelope of section 3, nonce then ciphertext then tag, sealed under
    the key at [key], and flip any one bit of any byte of its ciphertext or
    tag region (offsets 24 to [encrypted_len - 1]).  [decrypt_file] with
    the same key then returns -1 as an authentication failure and writes
    nothing.  The engine is assumed to be tamper evident. *)
Theorem tamper_detection
    {T : Target} {E : AeadEngine}
    {C : AeadContract E} {TE : AeadTamperEvident E}
    (encrypted : ptr) (encrypted_len : Z) (key recovered : ptr)
    (n p : list byte) (j : Z) (b : nat) (s : state) :
  encrypted <> NULL -> key <> NULL -> recovered <> NULL ->
  40 <= encrypted_len <= SIZE_MAX ->
  disjoint encrypted encrypted_len key 32 ->
  length n = 24%nat ->
  load_bytes (heap s) encrypted encrypted_len =
    envelope n (load_bytes (heap s) key 32) p ->
  24 <= j < encrypted_len ->
  (b < 8)%nat ->
  let forged := tamper (encrypted + j) b s in
  let opened := decrypt_file encrypted encrypted_len key recovered forged in
  fst opened = -1 /\
  failure_kind (fst opened) (calls_since forged (snd opened))
    = Some AuthenticationFailure /\
  heap (snd opened) = heap forged.
Proof.
  intros He Hk Hr Hrange Hd Hln Hblob Hj Hb forged opened.
  set (k := load_bytes (heap s) key 32) in *.
  assert (Hlk : length k = 32%nat) by (unfold k; now rewrite length_load_bytes).
  destruct (envelope_fields _ _ _ _ _ _ Hlk Hln (proj1 Hrange) Hblob)
    as (Hlp & Hnonce0 & Hc0 & Ht0).
  destruct (aead_seal_length k n [] p Hlk Hln) as [Hlc Hlt].
  (* the fields the engine is handed *)
  assert (Hkey : load_bytes (heap forged) key 32 = k).
  { unfold forged, tamper. cbn [heap].
    apply load_poke_outside. unfold disjoint in Hd. lia. }
  assert (Hnonce : load_bytes (heap forged) encrypted 24 = n).
  { unfold forged, tamper. cbn [heap].
    rewrite load_poke_outside by lia. exact Hnonce0. }
  assert (Hbody : load_bytes (heap forged) (encrypted + 24)
                             (encrypted_len - 40 + 16) =
                  flip_bit_at (Z.to_nat (j - 24)) b
                    (fst (aead_seal k n [] p) ++ snd (aead_seal k n [] p))).
  { unfold forged, tamper. cbn [heap].
    replace (encrypted + j) with (encrypted + 24 + (j - 24)) by lia.
    rewrite load_poke_flip by lia.
    rewrite load_bytes_app by lia.
    now rewrite Hc0, Ht0. }
  assert (Hverdict : engine_verdict encrypted encrypted_len key forged = None).
  { unfold engine_verdict. rewrite Hkey, Hnonce.
    rewrite load_bytes_app in Hbody by lia.
    assert (HC : load_bytes (heap forged) (encrypted + 24)
                            (encrypted_len - 40) =
                 firstn (length p)
                   (flip_bit_at (Z.to_nat (j - 24)) b
                      (fst (aead_seal k n [] p) ++ snd (aead_seal k n [] p)))).
    { rewrite <- Hbody. symmetry. apply firstn_app_exact.
      rewrite length_load_bytes. lia. }
    assert (HT : load_bytes (heap forged)
                            (encrypted + 24 + (encrypted_len - 40)) 16 =
                 skipn (length p)
                   (flip_bit_at (Z.to_nat (j - 24)) b
                      (fst (aead_seal k n [] p) ++ snd (aead_seal k n [] p)))).
    { rewrite <- Hbody. symmetry. apply skipn_app_exact.
      rewrite length_load_bytes. lia. }
    rewrite HC, HT.
    apply aead_open_tampered; try assumption.
    rewrite length_app, Hlc, Hlt. lia. }
  unfold opened. rewrite decrypt_file_runs by assumption.
  rewrite Hverdict. cbn [fst snd heap].
  rewrite (calls_since_app _ _ [EvAeadUnlock (encrypted_len - 40) (-1)])
    by reflexivity.
  repeat split.
Qed.

Lemma tamper_detection_witness :
  let s := demo_sealed_state in
  let forged := tamper (1024 + 30) 3 s in
  let opened :=
    decrypt_file (T := wasm32) (E := ref_engine) 1024 45 128 2048 forged in
  (1024 <> NULL /\ 128 <> NULL /\ 2048 <> NULL /\
   40 <= 45 <= SIZE_MAX (T := wasm32) /\
   disjoint 1024 45 128 32 /\
   length (drawn_nonce demo_state) = 24%nat /\
   load_bytes (heap s) 1024 45 =
     envelope (E := ref_engine) (drawn_nonce demo_state)
              (load_bytes (heap s) 128 32) demo_plaintext /\
   24 <= 30 < 45 /\ (3 < 8)%nat) /\
  fst opened = -1 /\
  failure_kind (fst opened) (calls_since forged (snd opened))
    = Some AuthenticationFailure /\
  heap (snd opened) = heap forged.
Proof.
  intros s forged opened.
  assert (H1 : 1024 <> NULL) by (unfold NULL; lia).
  assert (H2 : 128 <> NULL) by (unfold NULL; lia).
  assert (H3 : 2048 <> NULL) by (unfold NULL; lia).
  assert (H4 : 40 <= 45 <= SIZE_MAX (T := wasm32))
    by (unfold SIZE_MAX; cbn [size_bits wasm32]; lia).
  assert (H5 : disjoint 1024 45 128 32) by (unfold disjoint; lia).
  assert (H6 : length (drawn_nonce demo_state) = 24%nat) by reflexivity.
  assert (H7 : load_bytes (heap s) 1024 45 =
               envelope (E := ref_engine) (drawn_nonce demo_state)
                        (load_bytes (heap s) 128 32) demo_plaintext)
    by (vm_compute; reflexivity).
  assert (H8 : 24 <= 30 < 45) by lia.
  assert (H9 : (3 < 8)%nat) by lia.
  split;
    [exact (conj H1 (conj H2 (conj H3 (conj H4 (conj H5
              (conj H6 (conj H7 (conj H8 H9)))))))) |].
  exact (tamper_detection (T := wasm32) (C := ref_engine_contract)
           (TE := ref_engine_tamper_evident)
           1024 45 128 2048 (drawn_nonce demo_state) demo_plaintext 30 3 s
           H1 H2 H3 H4 H5 H6 H7 H8 H9).
Defined.

(** ** Counting keys against envelopes *)











(** ** Opening with another key *)




(* ===================================================================== *)
(** * Further properties of the two exported functions *)
(* ===================================================================== *)

(** The engine's verdict on a blob depends on the bytes of the blob and of
    the key only, not on where they lie in memory. *)
Lemma engine_verdict_bytes {E : AeadEngine}
    (e1 e2 : ptr) (len : Z) (k1 k2 : ptr) (s1 s2 : state) :
  40 <= len ->
  load_bytes (heap s1) e1 len = load_bytes (heap s2) e2 len ->
  load_bytes (heap s1) k1 32 = load_bytes (heap s2) k2 32 ->
  engine_verdict e1 len k1 s1 = engine_verdict e2 len k2 s2.
Proof.
  intros Hlen Hblob Hkey. unfold engine_verdict.
  assert (Hsplit : forall m e,
             load_bytes m e len =
             load_bytes m e 24 ++
             (load_bytes m (e + 24) (len - 40) ++
              load_bytes m (e + 24 + (len - 40)) 16)).
  { intros m e.
    replace len with (24 + ((len - 40) + 16)) at 1 by lia.
    rewrite load_bytes_app by lia. now rewrite load_bytes_app by lia. }
  rewrite (Hsplit (heap s1) e1), (Hsplit (heap s2) e2) in Hblob.
  apply app_inj_length in Hblob as [Hn Hrest];
    [|now rewrite !length_load_bytes].
  apply app_inj_length in Hrest as [Hc Ht];
    [|now rewrite !length_load_bytes].
  now rewrite Hkey, Hn, Hc, Ht.
Qed.

(** X4 (opening writes inside the plaintext buffer only).  Whatever its
    arguments, [decrypt_file] changes no byte outside the
    [encrypted_len - 40] bytes at [plaintext], consumes no entropy, and
    calls no collaborator but the engine's unlock, at most once. *)
Theorem open_writes_only_plaintext
    {T : Target} {E : AeadEngine} {C : AeadContract E}
    (encrypted : ptr) (encrypted_len : Z) (key plaintext : ptr) (s : state) :
  0 <= encrypted_len <= SIZE_MAX ->
  let opened := decrypt_file encrypted encrypted_len key plaintext s in
  (forall a, a < plaintext \/ plaintext + (encrypted_len - 40) <= a ->
             heap (snd opened) a = heap s a) /\
  entropy (snd opened) = entropy s /\
  (calls_since s (snd opened) = [] \/
   calls_since s (snd opened) = [EvAeadUnlock (encrypted_len - 40) 0] \/
   calls_since s (snd opened) = [EvAeadUnlock (encrypted_len - 40) (-1)]).
Proof.
  intros Hlen opened.
  assert (Hrej : encrypted = NULL \/ key = NULL \/ plaintext = NULL \/
                 encrypted_len < 40 ->
                 opened = (-1, s)).
  { intro H. unfold opened. now apply decrypt_file_rejects. }
  destruct (Z.eq_dec encrypted NULL) as [He | He];
    [rewrite Hrej by tauto; cbn [snd]; rewrite calls_since_refl; auto |].
  destruct (Z.eq_dec key NULL) as [Hk | Hk];
    [rewrite Hrej by tauto; cbn [snd]; rewrite calls_since_refl; auto |].
  destruct (Z.eq_dec plaintext NULL) as [Hp | Hp];
    [rewrite Hrej by tauto; cbn [snd]; rewrite calls_since_refl; auto |].
  destruct (Z_lt_ge_dec encrypted_len 40) as [Hs | Hs];
    [rewrite Hrej by tauto; cbn [snd]; rewrite calls_since_refl; auto |].
  clear Hrej.
  assert (Hrange : 40 <= encrypted_len <= SIZE_MAX) by lia.
  unfold opened. rewrite decrypt_file_runs by assumption.
  destruct (engine_verdict encrypted encrypted_len key s) as [p|] eqn:Hv;
    cbn [snd heap entropy].
  - assert (Hp_len : Z.of_nat (length p) = encrypted_len - 40).
    { unfold engine_verdict in Hv. apply aead_open_length in Hv.
      rewrite Hv, length_load_bytes. lia. }
    split; [|split].
    + intros a Ha. apply store_bytes_outside. lia.
    + reflexivity.
    + right; left. now apply calls_since_app.
  - split; [|split].
    + reflexivity.
    + reflexivity.
    + right; right. now apply calls_since_app.
Qed.

Lemma open_writes_only_plaintext_witness :
  let s := snd (encrypt_file (T := wasm32) (E := ref_engine)
                             64 5 128 1024 demo_state) in
  let opened :=
    decrypt_file (T := wasm32) (E := ref_engine) 1024 45 128 2048 s in
  0 <= 45 <= SIZE_MAX (T := wasm32) /\
  (forall a, a < 2048 \/ 2048 + (45 - 40) <= a ->
             heap (snd opened) a = heap s a) /\
  entropy (snd opened) = entropy s /\
  (calls_since s (snd opened) = [] \/
   calls_since s (snd opened) = [EvAeadUnlock (45 - 40) 0] \/
   calls_since s (snd opened) = [EvAeadUnlock (45 - 40) (-1)]).
Proof.
  intros s opened.
  assert (H1 : 0 <= 45 <= SIZE_MAX (T := wasm32))
    by (unfold SIZE_MAX; cbn [size_bits wasm32]; lia).
  split; [exact H1 |].
  exact (open_writes_only_plaintext (T := wasm32) (C := ref_engine_contract)
           1024 45 128 2048 s H1).
Defined.

(** X6 (the value -1 within the range of [int]).  As long as the true
    lengths fit an [int], the returned value tells success from failure:
    [encrypt_file] returning -1 has left the machine state as it was and
    any other returned value is [plaintext_len + 40] after a call that
    passed validation; [decrypt_file] returning -1 has left memory as it
    was and any other returned value is [encrypted_len - 40], not negative,
    after the engine accepted the tag. *)
Theorem minus_one_means_failure_in_range {T : Target} {E : AeadEngine}
    (plaintext : ptr) (plaintext_len : Z) (key output : ptr)
    (encrypted : ptr) (encrypted_len : Z) (key' recovered : ptr)
    (s : state) :
  0 <= plaintext_len -> plaintext_len + 40 <= INT_MAX ->
  plaintext_len + 40 <= SIZE_MAX ->
  0 <= encrypted_len <= SIZE_MAX -> encrypted_len - 40 <= INT_MAX ->
  let sealed := encrypt_file plaintext plaintext_len key output s in
  let opened := decrypt_file encrypted encrypted_len key' recovered s in
  (fst sealed = -1 -> snd sealed = s) /\
  (fst sealed <> -1 ->
   fst sealed = plaintext_len + 40 /\
   plaintext <> NULL /\ key <> NULL /\ output <> NULL /\ plaintext_len <> 0) /\
  (fst opened = -1 -> heap (snd opened) = heap s) /\
  (fst opened <> -1 ->
   fst opened = encrypted_len - 40 /\ 0 <= fst opened /\
   engine_verdict encrypted encrypted_len key' s <> None).
Proof.
  intros Hl0 Hfit Hsz Hel Hefit sealed opened.
  assert (Hseal : (fst sealed = -1 -> snd sealed = s) /\
                  (fst sealed <> -1 ->
                   fst sealed = plaintext_len + 40 /\
                   plaintext <> NULL /\ key <> NULL /\ output <> NULL /\
                   plaintext_len <> 0)).
  { assert (Hrej : plaintext = NULL \/ key = NULL \/ output = NULL \/
                   plaintext_len = 0 -> sealed = (-1, s))
      by (intro H; unfold sealed; now apply encrypt_file_rejects).
    destruct (Z.eq_dec plaintext NULL) as [Hp | Hp];
      [rewrite Hrej by tauto; cbn [fst snd]; split; congruence |].
    destruct (Z.eq_dec key NULL) as [Hk | Hk];
      [rewrite Hrej by tauto; cbn [fst snd]; split; congruence |].
    destruct (Z.eq_dec output NULL) as [Ho | Ho];
      [rewrite Hrej by tauto; cbn [fst snd]; split; congruence |].
    destruct (Z.eq_dec plaintext_len 0) as [Hl | Hl];
      [rewrite Hrej by tauto; cbn [fst snd]; split; congruence |].
    unfold sealed. rewrite encrypt_file_runs by assumption. cbn [fst snd].
    rewrite to_size_small by lia.
    rewrite static_cast_int_small by lia.
    split; [intro H; lia | intros _; repeat split; assumption]. }
  assert (Hopen : (fst opened = -1 -> heap (snd opened) = heap s) /\
                  (fst opened <> -1 ->
                   fst opened = encrypted_len - 40 /\ 0 <= fst opened /\
                   engine_verdict encrypted encrypted_len key' s <> None)).
  { assert (Hrej : encrypted = NULL \/ key' = NULL \/ recovered = NULL \/
                   encrypted_len < 40 -> opened = (-1, s))
      by (intro H; unfold opened; now apply decrypt_file_rejects).
    destruct (Z.eq_dec encrypted NULL) as [He | He];
      [rewrite Hrej by tauto; cbn [fst snd]; split; congruence |].
    destruct (Z.eq_dec key' NULL) as [Hk | Hk];
      [rewrite Hrej by tauto; cbn [fst snd]; split; congruence |].
    destruct (Z.eq_dec recovered NULL) as [Hr | Hr];
      [rewrite Hrej by tauto; cbn [fst snd]; split; congruence |].
    destruct (Z_lt_ge_dec encrypted_len 40) as [Hs | Hs];
      [rewrite Hrej by tauto; cbn [fst snd]; split; congruence |].
    assert (Hrange : 40 <= encrypted_len <= SIZE_MAX) by lia.
    unfold opened. rewrite decrypt_file_runs by assumption.
    destruct (engine_verdict encrypted encrypted_len key' s) as [p|];
      cbn [fst snd heap].
    - rewrite static_cast_int_small by lia.
      split; [intro H; lia | intros _; repeat split; [lia | discriminate]].
    - split; [reflexivity | congruence]. }
  destruct Hseal as [Hs1 Hs2]. destruct Hopen as [Ho1 Ho2].
  exact (conj Hs1 (conj Hs2 (conj Ho1 Ho2))).
Qed.

Lemma minus_one_means_failure_in_range_witness :
  let s := snd (encrypt_file (T := wasm32) (E := ref_engine)
                             64 5 128 1024 demo_state) in
  let sealed := encrypt_file (T := wasm32) (E := ref_engine) 64 5 128 4096 s in
  let opened := decrypt_file (T := wasm32) (E := ref_engine) 1024 45 192 2048 s in
  (0 <= 5 /\ 5 + 40 <= INT_MAX /\ 5 + 40 <= SIZE_MAX (T := wasm32) /\
   0 <= 45 <= SIZE_MAX (T := wasm32) /\ 45 - 40 <= INT_MAX /\
   fst sealed <> -1 /\ fst opened = -1) /\
  fst sealed = 5 + 40 /\ heap (snd opened) = heap s.
Proof.
  intros s sealed opened.
  assert (H1 : 0 <= 5) by lia.
  assert (H2 : 5 + 40 <= INT_MAX) by (unfold INT_MAX; lia).
  assert (H3 : 5 + 40 <= SIZE_MAX (T := wasm32))
    by (unfold SIZE_MAX; cbn [size_bits wasm32]; lia).
  assert (H4 : 0 <= 45 <= SIZE_MAX (T := wasm32))
    by (unfold SIZE_MAX; cbn [size_bits wasm32]; lia).
  assert (H5 : 45 - 40 <= INT_MAX) by (unfold INT_MAX; lia).
  assert (H6 : fst sealed <> -1) by (vm_compute; discriminate).
  assert (H7 : fst opened = -1) by (vm_compute; reflexivity).
  split; [exact (conj H1 (conj H2 (conj H3 (conj H4 (conj H5 (conj H6 H7)))))) |].
  destruct (minus_one_means_failure_in_range (T := wasm32) (E := ref_engine)
              64 5 128 4096 1024 45 192 2048 s H1 H2 H3 H4 H5)
    as (_ & Hs & Ho & _).
  split; [exact (proj1 (Hs H6)) | exact (Ho H7)].
Defined.

(** X8 (the 40-byte blob).  A blob of exactly 40 bytes, a nonce and a tag
    around an empty ciphertext, passes the length check of [decrypt_file]:
    the engine is asked, the call returns 0 when the engine accepts the tag
    and -1 as an authentication failure when it does not, and memory is
    left as it was in both cases. *)
Theorem open_minimum_envelope
    {T : Target} {E : AeadEngine} {C : AeadContract E}
    (encrypted key plaintext : ptr) (s : state) :
  encrypted <> NULL -> key <> NULL -> plaintext <> NULL ->
  40 <= SIZE_MAX ->
  let verdict :=
    aead_open (load_bytes (heap s) key 32) (load_bytes (heap s) encrypted 24)
              [] [] (load_bytes (heap s) (encrypted + 24) 16) in
  let opened := decrypt_file encrypted 40 key plaintext s in
  (forall a, heap (snd opened) a = heap s a) /\
  (verdict <> None ->
   fst opened = 0 /\
   calls_since s (snd opened) = [EvAeadUnlock 0 0]) /\
  (verdict = None ->
   fst opened = -1 /\
   failure_kind (fst opened) (calls_since s (snd opened))
     = Some AuthenticationFailure).
Proof.
  intros He Hk Hp Hsz verdict opened.
  assert (Hrange : 40 <= 40 <= SIZE_MAX) by lia.
  assert (Hv : engine_verdict encrypted 40 key s = verdict).
  { unfold engine_verdict, verdict. change (40 - 40) with 0.
    now rewrite Z.add_0_r. }
  unfold opened. rewrite decrypt_file_runs by assumption. rewrite Hv.
  change (40 - 40) with 0.
  destruct verdict as [p|] eqn:Hverdict; cbn [fst snd heap].
  - assert (Hnil : p = []).
    { unfold verdict in Hverdict. apply aead_open_length in Hverdict.
      now apply length_zero_iff_nil. }
    subst p. split; [|split].
    + intro a. apply store_bytes_outside. simpl. lia.
    + intros _. split; [reflexivity | now apply calls_since_app].
    + discriminate.
  - split; [|split].
    + reflexivity.
    + congruence.
    + intros _. split; [reflexivity|].
      now rewrite (calls_since_app _ _ [EvAeadUnlock 0 (-1)]).
Qed.

Lemma open_minimum_envelope_witness :
  let verdict :=
    aead_open (AeadEngine := ref_engine)
              (load_bytes (heap zero_state) 64 32)
              (load_bytes (heap zero_state) 1024 24)
              [] [] (load_bytes (heap zero_state) (1024 + 24) 16) in
  let opened :=
    decrypt_file (T := wasm32) (E := ref_engine) 1024 40 64 2048 zero_state in
  (1024 <> NULL /\ 64 <> NULL /\ 2048 <> NULL /\
   40 <= SIZE_MAX (T := wasm32) /\ verdict <> None) /\
  (forall a, heap (snd opened) a = heap zero_state a) /\
  fst opened = 0 /\
  calls_since zero_state (snd opened) = [EvAeadUnlock 0 0].
Proof.
  intros verdict opened.
  assert (H1 : 1024 <> NULL) by (unfold NULL; lia).
  assert (H2 : 64 <> NULL) by (unfold NULL; lia).
  assert (H3 : 2048 <> NULL) by (unfold NULL; lia).
  assert (H4 : 40 <= SIZE_MAX (T := wasm32))
    by (unfold SIZE_MAX; cbn [size_bits wasm32]; lia).
  assert (H5 : verdict <> None) by (vm_compute; discriminate).
  split; [exact (conj H1 (conj H2 (conj H3 (conj H4 H5)))) |].
  destruct (open_minimum_envelope (T := wasm32) (C := ref_engine_contract)
              1024 64 2048 zero_state H1 H2 H3 H4) as (Hmem & Hacc & _).
  split; [exact Hmem | exact (Hacc H5)].
Defined.

(** X9 (opening does not consume the envelope).  When the plaintext buffer
    overlaps neither the blob nor the key, a second call of [decrypt_file]
    with the same arguments returns what the first returned and leaves
    memory as the first left it. *)
Theorem open_twice
    {T : Target} {E : AeadEngine} {C : AeadContract E}
    (encrypted : ptr) (encrypted_len : Z) (key plaintext : ptr) (s : state) :
  encrypted <> NULL -> key <> NULL -> plaintext <> NULL ->
  40 <= encrypted_len <= SIZE_MAX ->
  disjoint plaintext (encrypted_len - 40) encrypted encrypted_len ->
  disjoint plaintext (encrypted_len - 40) key 32 ->
  let first := decrypt_file encrypted encrypted_len key plaintext s in
  let second :=
    decrypt_file encrypted encrypted_len key plaintext (snd first) in
  fst second = fst first /\
  (forall a, heap (snd second) a = heap (snd first) a) /\
  load_bytes (heap (snd first)) encrypted encrypted_len =
    load_bytes (heap s) encrypted encrypted_len.
Proof.
  intros He Hk Hp Hrange Hde Hdk first second.
  assert (Hfirst := decrypt_file_runs encrypted encrypted_len key plaintext s
                      He Hk Hp Hrange).
  fold first in Hfirst.
  assert (Hframe : forall a,
             a < plaintext \/ plaintext + (encrypted_len - 40) <= a ->
             heap (snd first) a = heap s a).
  { intros a Ha. rewrite Hfirst.
    destruct (engine_verdict encrypted encrypted_len key s) as [p|] eqn:Hv;
      cbn [snd heap]; [|reflexivity].
    unfold engine_verdict in Hv. apply aead_open_length in Hv.
    rewrite length_load_bytes in Hv.
    apply store_bytes_outside. lia. }
  assert (Hblob : load_bytes (heap (snd first)) encrypted encrypted_len =
                  load_bytes (heap s) encrypted encrypted_len).
  { apply load_bytes_ext. intros a Ha. apply Hframe.
    unfold disjoint in Hde. lia. }
  assert (Hkey : load_bytes (heap (snd first)) key 32 =
                 load_bytes (heap s) key 32).
  { apply load_bytes_ext. intros a Ha. apply Hframe.
    unfold disjoint in Hdk. lia. }
  assert (Hv2 : engine_verdict encrypted encrypted_len key (snd first) =
                engine_verdict encrypted encrypted_len key s).
  { apply engine_verdict_bytes; [lia | exact Hblob | exact Hkey]. }
  unfold second. rewrite decrypt_file_runs by assumption. rewrite Hv2.
  rewrite Hfirst.
  destruct (engine_verdict encrypted encrypted_len key s) as [p|];
    cbn [fst snd heap].
  - split; [reflexivity | split; [|now rewrite Hfirst in Hblob]].
    intro a. unfold store_bytes.
    destruct ((plaintext <=? a) && (a <? plaintext + Z.of_nat (length p)));
      reflexivity.
  - split; [reflexivity | split; [reflexivity | now rewrite Hfirst in Hblob]].
Qed.

Lemma open_twice_witness :
  let s := snd (encrypt_file (T := wasm32) (E := ref_engine)
                             64 5 128 1024 demo_state) in
  let first :=
    decrypt_file (T := wasm32) (E := ref_engine) 1024 45 128 2048 s in
  let second :=
    decrypt_file (T := wasm32) (E := ref_engine) 1024 45 128 2048 (snd first) in
  (1024 <> NULL /\ 128 <> NULL /\ 2048 <> NULL /\
   40 <= 45 <= SIZE_MAX (T := wasm32) /\
   disjoint 2048 (45 - 40) 1024 45 /\ disjoint 2048 (45 - 40) 128 32) /\
  fst second = fst first /\
  (forall a, heap (snd second) a = heap (snd first) a) /\
  load_bytes (heap (snd first)) 1024 45 = load_bytes (heap s) 1024 45.
Proof.
  intros s first second.
  assert (H1 : 1024 <> NULL) by (unfold NULL; lia).
  assert (H2 : 128 <> NULL) by (unfold NULL; lia).
  assert (H3 : 2048 <> NULL) by (unfold NULL; lia).
  assert (H4 : 40 <= 45 <= SIZE_MAX (T := wasm32))
    by (unfold SIZE_MAX; cbn [size_bits wasm32]; lia).
  assert (H5 : disjoint 2048 (45 - 40) 1024 45) by (unfold disjoint; lia).
  assert (H6 : disjoint 2048 (45 - 40) 128 32) by (unfold disjoint; lia).
  split; [exact (conj H1 (conj H2 (conj H3 (conj H4 (conj H5 H6))))) |].
  exact (open_twice (T := wasm32) (C := ref_engine_contract)
           1024 45 128 2048 s H1 H2 H3 H4 H5 H6).
Defined.

(** X10 (where sealing writes).  A well-formed call of [encrypt_file] with
    a plaintext of at least 16 bytes leaves the nonce at [output], the
    16-byte tag at [output + 24] and the ciphertext at
    [output + 24 + plaintext_len], up to [output + 24 + 2 * plaintext_len]:
    past the [plaintext_len + 40] bytes of the output buffer as soon as the
    plaintext has more than 16 bytes.  The bytes between the tag and the
    ciphertext, and every byte before [output] or after the ciphertext,
    are left as they were. *)
Theorem seal_layout_as_written
    {T : Target} {E : AeadEngine} {C : AeadContract E}
    (plaintext : ptr) (plaintext_len : Z) (key output : ptr) (s : state) :
  seal_call_ok plaintext plaintext_len key output ->
  16 <= plaintext_len ->
  let k := load_bytes (heap s) key 32 in
  let p := load_bytes (heap s) plaintext plaintext_len in
  let n := drawn_nonce s in
  let sealed := encrypt_file plaintext plaintext_len key output s in
  load_bytes (heap (snd sealed)) output 24 = n /\
  load_bytes (heap (snd sealed)) (output + 24) 16 =
    snd (aead_seal k n [] p) /\
  load_bytes (heap (snd sealed)) (output + 24 + plaintext_len) plaintext_len =
    fst (aead_seal k n [] p) /\
  (forall a,
      a < output \/
      output + 40 <= a < output + 24 + plaintext_len \/
      output + 24 + 2 * plaintext_len <= a ->
      heap (snd sealed) a = heap s a).
Proof.
  intros Hcall H16 k p n sealed.
  pose proof Hcall as (Hp & Hk & Ho & Hl & _).
  unfold sealed. rewrite encrypt_file_runs by (try assumption; lia).
  cbn [snd]. split; [|split; [|split]].
  - now apply sealed_nonce.
  - now apply sealed_tag_at_24.
  - now apply sealed_ciphertext_behind.
  - intros a Ha. apply sealed_frame; [assumption | lia].
Qed.

Lemma seal_layout_as_written_witness :
  let k := load_bytes (heap zero_state) 128 32 in
  let p := load_bytes (heap zero_state) 64 32 in
  let n := drawn_nonce zero_state in
  let sealed :=
    encrypt_file (T := wasm32) (E := ref_engine) 64 32 128 1024 zero_state in
  (seal_call_ok (T := wasm32) 64 32 128 1024 /\ 16 <= 32) /\
  load_bytes (heap (snd sealed)) 1024 24 = n /\
  load_bytes (heap (snd sealed)) (1024 + 24) 16 =
    snd (aead_seal (AeadEngine := ref_engine) k n [] p) /\
  load_bytes (heap (snd sealed)) (1024 + 24 + 32) 32 =
    fst (aead_seal (AeadEngine := ref_engine) k n [] p) /\
  (forall a,
      a < 1024 \/
      1024 + 40 <= a < 1024 + 24 + 32 \/
      1024 + 24 + 2 * 32 <= a ->
      heap (snd sealed) a = heap zero_state a).
Proof.
  intros k p n sealed.
  assert (H1 : seal_call_ok (T := wasm32) 64 32 128 1024) by call_ok.
  assert (H2 : 16 <= 32) by lia.
  split; [exact (conj H1 H2) |].
  exact (seal_layout_as_written (T := wasm32) (C := ref_engine_contract)
           64 32 128 1024 zero_state H1 H2).
Defined.

(** X11 (opening an envelope of the spec).  In any machine state that
    holds at [encrypted] the envelope of section 3, nonce then ciphertext
    then tag, of a plaintext sealed under the key at [key], [decrypt_file]
    is no failure, writes that plaintext to the caller's buffer and
    returns [static_cast<int>(encrypted_len - 40)], the length of the
    plaintext whenever that fits an [int]. *)
Theorem open_spec_envelope
    {T : Target} {E : AeadEngine} {C : AeadContract E}
    (encrypted : ptr) (encrypted_len : Z) (key recovered : ptr)
    (n p : list byte) (s : state) :
  encrypted <> NULL -> key <> NULL -> recovered <> NULL ->
  40 <= encrypted_len <= SIZE_MAX ->
  length n = 24%nat ->
  load_bytes (heap s) encrypted encrypted_len =
    envelope n (load_bytes (heap s) key 32) p ->
  let opened := decrypt_file encrypted encrypted_len key recovered s in
  failure_kind (fst opened) (calls_since s (snd opened)) = None /\
  load_bytes (heap (snd opened)) recovered (encrypted_len - 40) = p /\
  fst opened = static_cast_int (encrypted_len - 40) /\
  (encrypted_len - 40 <= INT_MAX -> fst opened = Z.of_nat (length p)).
Proof.
  intros He Hk Hr Hrange Hn Hblob opened.
  assert (Hlk : length (load_bytes (heap s) key 32) = 32%nat)
    by now rewrite length_load_bytes.
  destruct (envelope_fields _ _ _ _ _ _ Hlk Hn (proj1 Hrange) Hblob)
    as (Hlp & _).
  unfold opened. rewrite decrypt_file_runs by assumption.
  rewrite (envelope_verdict_same_key _ _ _ n p) by (assumption || lia).
  cbn [fst snd heap]. split; [|split; [|split]].
  - rewrite (calls_since_app _ _ [EvAeadUnlock (encrypted_len - 40) 0])
      by reflexivity.
    apply failure_kind_accepted.
  - apply load_store_same. now rewrite Hlp.
  - reflexivity.
  - intro Hi. rewrite Hlp. apply static_cast_int_small. lia.
Qed.

Lemma open_spec_envelope_witness :
  let s := demo_sealed_state in
  let opened :=
    decrypt_file (T := wasm32) (E := ref_engine) 1024 45 128 2048 s in
  (1024 <> NULL /\ 128 <> NULL /\ 2048 <> NULL /\
   40 <= 45 <= SIZE_MAX (T := wasm32) /\
   length (drawn_nonce demo_state) = 24%nat /\
   load_bytes (heap s) 1024 45 =
     envelope (E := ref_engine) (drawn_nonce demo_state)
              (load_bytes (heap s) 128 32) demo_plaintext) /\
  failure_kind (fst opened) (calls_since s (snd opened)) = None /\
  load_bytes (heap (snd opened)) 2048 (45 - 40) = demo_plaintext /\
  fst opened = static_cast_int (45 - 40) /\
  (45 - 40 <= INT_MAX -> fst opened = Z.of_nat (length demo_plaintext)).
Proof.
  intros s opened.
  assert (H1 : 1024 <> NULL) by (unfold NULL; lia).
  assert (H2 : 128 <> NULL) by (unfold NULL; lia).
  assert (H3 : 2048 <> NULL) by (unfold NULL; lia).
  assert (H4 : 40 <= 45 <= SIZE_MAX (T := wasm32))
    by (unfold SIZE_MAX; cbn [size_bits wasm32]; lia).
  assert (H5 : length (drawn_nonce demo_state) = 24%nat) by reflexivity.
  assert (H6 : load_bytes (heap s) 1024 45 =
               envelope (E := ref_engine) (drawn_nonce demo_state)
                        (load_bytes (heap s) 128 32) demo_plaintext)
    by (vm_compute; reflexivity).
  split; [exact (conj H1 (conj H2 (conj H3 (conj H4 (conj H5 H6))))) |].
  exact (open_spec_envelope (T := wasm32) (C := ref_engine_contract)
           1024 45 128 2048 (drawn_nonce demo_state) demo_plaintext s
           H1 H2 H3 H4 H5 H6).
Defined.
